(** * The bracket-pair AST of [vs/editor/common/model/bracketPairColorizer/ast.ts]

    A shallow embedding in two layers.

    - The _value layer_ reads a node as the finite tree it denotes
      ([AstNode]).  The read-only members ([canBeReused], the factories
      [PairAstNode.create] and [ListAstNode.create], [flattenLists]) are
      functions on these trees.
    - The _store layer_ gives every object an address ([loc]) in a [store],
      so that object identity, in-place mutation of a List and the static
      intern cache of [BracketAstNode] can be stated.  [toMutable], the four
      structural mutators, [deepClone] and [BracketAstNode.create] live here,
      in a small state-and-exception monad.

    [repr] ties the two: it says which tree the object graph below an address
    unfolds to. *)

From Equations Require Import Equations.
From stdpp Require Import gmap list strings.

(** ** Imported interfaces *)

(** ast.ts imports [lengthAdd], [lengthZero], [Length] and [lengthHash] from
    [./length], which is outside the embedded file: they are parameters of the
    whole development.  [lengthHash] returns a JS [number]. *)
Class LengthOps := {
  Length : Type;
  lengthZero : Length;
  lengthAdd : Length → Length → Length;
  lengthHash : Length → Z
}.


(** Modelled from the spec: [./smallImmutableSet] is not embedded; the category
    set is "an immutable bitset over small integer bracket category keys,
    supporting union and intersection-test", here a finite set of integers. *)
Definition SmallImmutableSet : Type := gset Z.
Definition getEmpty : SmallImmutableSet := ∅.
Definition merge (a b : SmallImmutableSet) : SmallImmutableSet := a ∪ b.
Definition intersects (a b : SmallImmutableSet) : bool :=
  bool_decide (a ∩ b ≠ ∅).
Definition add (value : Z) (a : SmallImmutableSet) : SmallImmutableSet :=
  {[ value ]} ∪ a.

(** Modelled from the spec: [tail] of [vs/base/common/arrays] is not
    embedded; "taking the last child" is the last element of the array. *)
Definition tail {A} (arr : list A) : option A := last arr.

Inductive AstNodeKind :=
| KText | KBracket | KPair | KUnexpectedClosingBracket | KList.

Definition AstNodeKind_value (k : AstNodeKind) : Z :=
  match k with
  | KText => 0 | KBracket => 1 | KPair => 2
  | KUnexpectedClosingBracket => 3 | KList => 4
  end.

(** How a call ends: normally, with a thrown [Error], on an address or a
    receiver class no well-typed caller produces, or with the recursion
    budget used up.  The store is kept in every case: a [throw] undoes
    nothing. *)
Inductive outcome (A : Type) :=
| Ok (a : A)
| Throw (message : string)
| Stuck
| OutOfFuel.
Arguments Ok {A} a.
Arguments Throw {A} message.
Arguments Stuck {A}.
Arguments OutOfFuel {A}.

(** Object identity in the store layer.  Addresses are handed out in
    allocation order. *)
Abbreviation loc := nat (only parsing).

Section model.
Context `{LengthOps}.

(** ** Value layer *)

(** A [BracketAstNode] has no field but its length. *)
Record BracketAstNode := mkBracket { bracket_length : Length }.

(** One constructor per class; the arguments are the fields of the class.
    [immutable] tells [ImmutableListAstNode] from [ListAstNode]. *)
#[warnings="-register-all"]
Inductive AstNode :=
| NText (length : Length)
| NBracket (b : BracketAstNode)
| NInvalidBracket (length : Length) (unopenedBrackets : SmallImmutableSet)
| NPair (length : Length) (category : Z) (openingBracket : BracketAstNode)
        (child : option AstNode) (closingBracket : option BracketAstNode)
        (unopenedBrackets : SmallImmutableSet)
| NList (immutable : bool) (length : Length) (listHeight : Z)
        (_children : list AstNode) (_unopenedBrackets : SmallImmutableSet).

Definition kind (n : AstNode) : AstNodeKind :=
  match n with
  | NText _ => KText
  | NBracket _ => KBracket
  | NInvalidBracket _ _ => KUnexpectedClosingBracket
  | NPair _ _ _ _ _ _ => KPair
  | NList _ _ _ _ _ => KList
  end.

Definition node_length (n : AstNode) : Length :=
  match n with
  | NText l | NInvalidBracket l _ | NPair l _ _ _ _ _ | NList _ l _ _ _ => l
  | NBracket b => bracket_length b
  end.

Definition unopenedBrackets (n : AstNode) : SmallImmutableSet :=
  match n with
  | NText _ | NBracket _ => getEmpty
  | NInvalidBracket _ u | NPair _ _ _ _ _ u | NList _ _ _ _ u => u
  end.

Definition listHeight (n : AstNode) : Z :=
  match n with
  | NList _ _ h _ _ => h
  | _ => 0
  end.

Definition children (n : AstNode) : list AstNode :=
  match n with
  | NPair _ _ openingBracket child closingBracket _ =>
      [NBracket openingBracket] ++ option_list child
        ++ option_list (NBracket <$> closingBracket)
  | NList _ _ _ cs _ => cs
  | _ => []
  end.

Fixpoint size (n : AstNode) : nat :=
  match n with
  | NPair _ _ _ (Some c) _ _ => S (size c)
  | NList _ _ _ cs _ => S (foldr (λ c acc, size c + acc) 0 cs)
  | _ => 1
  end.

Definition computeLength (openingBracket : BracketAstNode)
    (child : option AstNode) (closingBracket : option BracketAstNode) : Length :=
  let length := bracket_length openingBracket in
  let length :=
    match child with
    | Some c => lengthAdd length (node_length c)
    | None => length
    end in
  match closingBracket with
  | Some cb => lengthAdd length (bracket_length cb)
  | None => length
  end.

Definition PairAstNode_create (category : Z) (openingBracket : BracketAstNode)
    (child : option AstNode) (closingBracket : option BracketAstNode) : AstNode :=
  let length := computeLength openingBracket child closingBracket in
  NPair length category openingBracket child closingBracket
    (match child with Some c => unopenedBrackets c | None => getEmpty end).

(** The loop shared by [ListAstNode.create] and [handleChildrenChanged]:
    start from [items[0]], then [i = 1 .. items.length - 1]. *)
Definition aggregate {A} (len : A → Length) (unopened : A → SmallImmutableSet)
    (item0 : A) (items : list A) : Length * SmallImmutableSet :=
  foldl (λ '(length, unopenedBrackets) item,
           (lengthAdd length (len item),
            merge unopenedBrackets (unopened item)))
        (len item0, unopened item0) (drop 1 items).

Definition ListAstNode_create (items : list AstNode) (immutable : bool) : AstNode :=
  match items with
  | [] => NList immutable lengthZero 0 items getEmpty
  | item0 :: _ =>
      let '(length, unopenedBrackets) :=
        aggregate node_length unopenedBrackets item0 items in
      NList immutable length (listHeight item0 + 1) items unopenedBrackets
  end.

(** The [while] loop of [ListAstNode.canBeReused]. *)
Fixpoint lastChildLoop (lastChild : AstNode) : AstNode :=
  match lastChild with
  | NList _ _ _ childrenFast _ =>
      default lastChild
        ((fix go (cs : list AstNode) : option AstNode :=
            match cs with
            | [] => None
            | [c] => Some (lastChildLoop c)
            | _ :: cs' => go cs'
            end) childrenFast)
  | _ => lastChild
  end.

(** [canBeReused], one clause per class; the receiver of the last call of the
    List clause is whatever the loop stopped at. *)
Equations? canBeReused (n : AstNode) (expectedClosingCategories : SmallImmutableSet)
    (endLineDidChange : bool) : bool by wf (size n) lt :=
  canBeReused (NText _) _ endLineDidChange := negb endLineDidChange;
  canBeReused (NBracket _) _ _ := false;
  canBeReused (NInvalidBracket _ u) expected _ := negb (intersects expected u);
  canBeReused (NPair _ _ _ _ None _) _ _ := false;
  canBeReused (NPair _ _ _ _ (Some _) u) expected _ :=
    if intersects expected u then false else true;
  canBeReused (NList _ _ _ [] _) _ _ := true;
  canBeReused (NList i l h (c :: cs) u) expected endLineDidChange :=
    if intersects expected u then false
    else canBeReused (lastChildLoop (NList i l h (c :: cs) u))
           expected endLineDidChange.
Proof.
  assert (Hgo : ∀ ds d0,
    size (default d0
      ((fix go (cs : list AstNode) : option AstNode :=
          match cs with
          | [] => None
          | [d] => Some (lastChildLoop d)
          | _ :: cs' => go cs'
          end) ds)) ≤
    match last ds with Some d => size (lastChildLoop d) | None => size d0 end).
  { intros ds d0. induction ds as [|a [|b ds] IH]; simpl in *; auto. }
  assert (Hlast : ∀ ds d, last ds = Some d →
    size d ≤ foldr (λ c acc, size c + acc) 0 ds).
  { induction ds as [|a [|b ds] IH]; intros d E; simplify_eq/=; try lia.
    specialize (IH _ E). lia. }
  assert (Hloop : ∀ n, size (lastChildLoop n) ≤ size n).
  { intros n. induction n as [n IH] using (induction_ltof1 _ size).
    unfold ltof in IH. destruct n as [| | | |i' l' h' ds u']; try done.
    etrans; [apply Hgo|]. destruct (last ds) as [d|] eqn:E; [|done].
    pose proof (Hlast _ _ E). etrans; [apply IH|]; simpl; lia. }
  clear canBeReused.
  pose proof (Hgo (c :: cs) (NList i l h (c :: cs) u)) as Hg.
  destruct (last (c :: cs)) as [d|] eqn:E; [|by apply last_None in E].
  pose proof (Hlast _ _ E). pose proof (Hloop d). simpl in *. lia.
Qed.

(** What the loop body of [ListAstNode.flattenLists] pushes for one
    normalized child. *)
Definition pushed (normalized : AstNode) : list AstNode :=
  match normalized with
  | NList _ _ _ _children _ => _children
  | _ => [normalized]
  end.

Fixpoint flattenLists (n : AstNode) : AstNode :=
  match n with
  | NPair _ category openingBracket child closingBracket _ =>
      PairAstNode_create category openingBracket
        (match child with Some c => Some (flattenLists c) | None => None end)
        closingBracket
  | NList _ _ _ childrenFast _ =>
      let items :=
        (fix loop (cs : list AstNode) : list AstNode :=
           match cs with
           | [] => []
           | c :: cs' => pushed (flattenLists c) ++ loop cs'
           end) childrenFast in
      ListAstNode_create items false
  | _ => n
  end.

(** ** Store layer *)

(** The fields of an object of each class; node-valued fields hold addresses.
    The child array of a List is held by value.  [ListAstNode.create] keeps
    the array it is given, so a caller that held on to it could change the
    List behind its back; no member of ast.ts does ([toMutable] and [clone]
    copy, [flattenLists] builds a fresh array), and nothing below is about
    such a caller. *)
Inductive obj :=
| OText (_length : Length)
| OBracket (_length : Length)
| OInvalidBracket (_length : Length) (unopenedBrackets : SmallImmutableSet)
| OPair (_length : Length) (category : Z) (openingBracket : loc)
        (child : option loc) (closingBracket : option loc)
        (unopenedBrackets : SmallImmutableSet)
| OList (immutable : bool) (_length : Length) (listHeight : Z)
        (_children : list loc) (_unopenedBrackets : SmallImmutableSet).

Definition obj_length (o : obj) : Length :=
  match o with
  | OText l | OBracket l | OInvalidBracket l _
  | OPair l _ _ _ _ _ | OList _ l _ _ _ => l
  end.

Definition obj_unopenedBrackets (o : obj) : SmallImmutableSet :=
  match o with
  | OText _ | OBracket _ => getEmpty
  | OInvalidBracket _ u | OPair _ _ _ _ _ u | OList _ _ _ _ u => u
  end.

Definition obj_kind (o : obj) : AstNodeKind :=
  match o with
  | OText _ => KText
  | OBracket _ => KBracket
  | OInvalidBracket _ _ => KUnexpectedClosingBracket
  | OPair _ _ _ _ _ _ => KPair
  | OList _ _ _ _ _ => KList
  end.

Definition obj_is_leaf (o : obj) : bool :=
  match o with
  | OText _ | OBracket _ | OInvalidBracket _ _ => true
  | _ => false
  end.

(** The heap of node objects and [BracketAstNode.cacheByLength]. *)
Record store := mkStore {
  objects : list obj;
  cacheByLength : gmap Z loc
}.

Definition empty_store : store := mkStore [] ∅.

Definition M (A : Type) : Type := store → outcome A * store.

#[export] Instance M_ret : MRet M := λ A a s, (Ok a, s).
#[export] Instance M_bind : MBind M := λ A B f m s,
  match m s with
  | (Ok a, s') => f a s'
  | (Throw msg, s') => (Throw msg, s')
  | (Stuck, s') => (Stuck, s')
  | (OutOfFuel, s') => (OutOfFuel, s')
  end.

Definition throw {A} (message : string) : M A := λ s, (Throw message, s).
Definition stuck {A} : M A := λ s, (Stuck, s).
Definition out_of_fuel {A} : M A := λ s, (OutOfFuel, s).

(** [new C(...)]: the next free address. *)
Definition new (o : obj) : M loc := λ s,
  (Ok (length (objects s)), mkStore (objects s ++ [o]) (cacheByLength s)).

Definition load (l : loc) : M obj := λ s,
  match objects s !! l with
  | Some o => (Ok o, s)
  | None => (Stuck, s)
  end.

Definition write (l : loc) (o : obj) : M unit := λ s,
  (Ok (), mkStore (<[l := o]> (objects s)) (cacheByLength s)).

(** [for (...) result[i] = f(arr[i])]. *)
Fixpoint for_each {A B} (f : A → M B) (arr : list A) : M (list B) :=
  match arr with
  | [] => mret []
  | a :: arr' => b ← f a; bs ← for_each f arr'; mret (b :: bs)
  end.

(** *** [ListAstNode] *)

Definition get_children (this : loc) : M (list loc) :=
  o ← load this;
  match o with
  | OList _ _ _ cs _ => mret cs
  | _ => stuck
  end.

Definition set_children (this : loc) (cs : list loc) : M unit :=
  o ← load this;
  match o with
  | OList i l h _ u => write this (OList i l h cs u)
  | _ => stuck
  end.

(** [ListAstNode.throwIfImmutable] is a no-op, which
    [ImmutableListAstNode] overrides. *)
Definition throwIfImmutable (this : loc) : M unit :=
  o ← load this;
  match o with
  | OList true _ _ _ _ => throw "this instance is immutable"
  | OList false _ _ _ _ => mret ()
  | _ => stuck
  end.

Definition handleChildrenChanged (this : loc) : M unit :=
  throwIfImmutable this;;
  items ← get_children this;
  match items with
  | [] => mret ()
  | _ :: _ =>
      nodes ← for_each load items;
      match nodes with
      | [] => stuck
      | node0 :: _ =>
          let '(length, unopenedBrackets) :=
            aggregate obj_length obj_unopenedBrackets node0 nodes in
          o ← load this;
          match o with
          | OList i _ h cs _ => write this (OList i length h cs unopenedBrackets)
          | _ => stuck
          end
      end
  end.

Definition appendChildOfSameHeight (this node : loc) : M unit :=
  throwIfImmutable this;;
  cs ← get_children this;
  set_children this (cs ++ [node]);;
  handleChildrenChanged this.

Definition unappendChild (this : loc) : M (option loc) :=
  throwIfImmutable this;;
  cs ← get_children this;
  let item := last cs in
  set_children this (removelast cs);;
  handleChildrenChanged this;;
  mret item.

Definition prependChildOfSameHeight (this node : loc) : M unit :=
  throwIfImmutable this;;
  cs ← get_children this;
  set_children this (node :: cs);;
  handleChildrenChanged this.

Definition unprependChild (this : loc) : M (option loc) :=
  throwIfImmutable this;;
  cs ← get_children this;
  let item := head cs in
  set_children this (drop 1 cs);;
  handleChildrenChanged this;;
  mret item.

(** [BaseAstNode.toMutable] returns [this]; [ImmutableListAstNode]
    overrides it. *)
Definition toMutable (this : loc) : M loc :=
  o ← load this;
  match o with
  | OList true length h cs u => new (OList false length h cs u)
  | _ => mret this
  end.

(** [clone], with the callee of [arr[i].deepClone()] passed in. *)
Definition clone (deepClone : loc → M loc) (arr : list loc) : M (list loc) :=
  for_each deepClone arr.

Definition and_then (f : loc → M loc) (x : option loc) : M (option loc) :=
  match x with
  | Some l => l' ← f l; mret (Some l')
  | None => mret None
  end.

(** [deepClone], dispatched on the class of the receiver.  The recursion
    follows addresses, so it is bounded by [fuel]. *)
Fixpoint deepClone (fuel : nat) (this : loc) : M loc :=
  match fuel with
  | 0 => out_of_fuel
  | S fuel =>
      o ← load this;
      match o with
      | OText _ | OBracket _ | OInvalidBracket _ _ => mret this
      | OPair length category openingBracket child closingBracket u =>
          openingBracket' ← deepClone fuel openingBracket;
          child' ← and_then (deepClone fuel) child;
          closingBracket' ← and_then (deepClone fuel) closingBracket;
          new (OPair length category openingBracket' child' closingBracket' u)
      | OList _ length h cs u =>
          cs' ← clone (deepClone fuel) cs;
          new (OList false length h cs' u)
      end
  end.

(** *** [BracketAstNode] *)

Definition cache_get (key : Z) : M (option loc) := λ s,
  (Ok (cacheByLength s !! key), s).

Definition cache_set (key : Z) (node : loc) : M unit := λ s,
  (Ok (), mkStore (objects s) (<[key := node]> (cacheByLength s))).

Definition BracketAstNode_create (length : Length) : M loc :=
  let lengthKey := lengthHash length in
  cached ← cache_get lengthKey;
  match cached with
  | Some cached => mret cached
  | None =>
      node ← new (OBracket length);
      cache_set lengthKey node;;
      mret node
  end.

(** The other constructors only allocate. *)
Definition new_TextAstNode (length : Length) : M loc := new (OText length).
Definition new_InvalidBracketAstNode (category : Z) (length : Length) : M loc :=
  new (OInvalidBracket length (add category getEmpty)).

(** ** Further members *)

(** *** Child access (value layer) *)

Definition childrenLength (n : AstNode) : Z :=
  match n with
  | NPair _ _ _ _ _ _ => 3
  | NList _ _ _ cs _ => Z.of_nat (length cs)
  | _ => 0
  end.

(** [getChild]: [inl message] is a thrown [Error], [inr None] is [null] or
    [undefined].  A List indexes its array, which is [undefined] outside its
    bounds. *)
Definition getChild (n : AstNode) (idx : Z) : string + option AstNode :=
  match n with
  | NPair _ _ openingBracket child closingBracket _ =>
      if decide (idx = 0)%Z then inr (Some (NBracket openingBracket))
      else if decide (idx = 1)%Z then inr child
      else if decide (idx = 2)%Z then inr (NBracket <$> closingBracket)
      else inl "Invalid child index"
  | NList _ _ _ cs _ =>
      inr (if decide (0 ≤ idx)%Z then cs !! Z.to_nat idx else None)
  | _ => inr None
  end.

(** [new InvalidBracketAstNode(category, length, denseKeyProvider)]. *)
Definition InvalidBracketAstNode_new (category : Z) (length : Length) : AstNode :=
  NInvalidBracket length (add category getEmpty).

(** *** Copy-on-write of the first or last child (store layer) *)

(** The body shared by [makeLastElementMutable] and
    [makeFirstElementMutable], for the slot [idx] of a non-empty array. *)
Definition makeElementMutable (this : loc) (cs : list loc) (idx : nat) : M (option loc) :=
  match cs !! idx with
  | None => stuck
  | Some lastChild =>
      mutable ← toMutable lastChild;
      (if decide (lastChild ≠ mutable)
       then set_children this (<[idx := mutable]> cs)
       else mret ());;
      mret (Some mutable)
  end.

Definition makeLastElementMutable (this : loc) : M (option loc) :=
  throwIfImmutable this;;
  cs ← get_children this;
  if decide (length cs = 0) then mret None
  else makeElementMutable this cs (length cs - 1).

Definition makeFirstElementMutable (this : loc) : M (option loc) :=
  throwIfImmutable this;;
  cs ← get_children this;
  if decide (length cs = 0) then mret None
  else makeElementMutable this cs 0.

(** *** The factories and [flattenLists] on the store *)

Definition obj_listHeight (o : obj) : Z :=
  match o with
  | OList _ _ h _ _ => h
  | _ => 0
  end.

Definition PairAstNode_create_store (category : Z) (openingBracket : loc)
    (child : option loc) (closingBracket : option loc) : M loc :=
  ob ← load openingBracket;
  ch ← match child with Some c => o ← load c; mret (Some o) | None => mret None end;
  cb ← match closingBracket with Some c => o ← load c; mret (Some o) | None => mret None end;
  let length := obj_length ob in
  let length :=
    match ch with Some c => lengthAdd length (obj_length c) | None => length end in
  let length :=
    match cb with Some c => lengthAdd length (obj_length c) | None => length end in
  new (OPair length category openingBracket child closingBracket
         (match ch with Some c => obj_unopenedBrackets c | None => getEmpty end)).

Definition ListAstNode_create_store (items : list loc) (immutable : bool) : M loc :=
  match items with
  | [] => new (OList immutable lengthZero 0 items getEmpty)
  | _ :: _ =>
      nodes ← for_each load items;
      match nodes with
      | [] => stuck
      | node0 :: _ =>
          let '(length, unopenedBrackets) :=
            aggregate obj_length obj_unopenedBrackets node0 nodes in
          new (OList immutable length (obj_listHeight node0 + 1) items
                 unopenedBrackets)
      end
  end.

(** The loop body of [ListAstNode.flattenLists] for one child. *)
Definition pushed_store (flattenLists : loc → M loc) (c : loc) : M (list loc) :=
  normalized ← flattenLists c;
  o ← load normalized;
  match o with
  | OList _ _ _ _children _ => mret _children
  | _ => mret [normalized]
  end.

Fixpoint flattenLists_store (fuel : nat) (this : loc) : M loc :=
  match fuel with
  | 0 => out_of_fuel
  | S fuel =>
      o ← load this;
      match o with
      | OText _ | OBracket _ | OInvalidBracket _ _ => mret this
      | OPair _ category openingBracket child closingBracket _ =>
          openingBracket' ← flattenLists_store fuel openingBracket;
          child' ← and_then (flattenLists_store fuel) child;
          closingBracket' ← and_then (flattenLists_store fuel) closingBracket;
          PairAstNode_create_store category openingBracket' child' closingBracket'
      | OList _ _ _ childrenFast _ =>
          pieces ← for_each (pushed_store (flattenLists_store fuel)) childrenFast;
          ListAstNode_create_store (concat pieces) false
      end
  end.

(** ** Stores and trees *)

(** [repr lo s l t]: in [s], the object graph below [l] unfolds to the tree
    [t], and every Pair and List object met on the way sits at an address
    [≥ lo].  With [lo = 0] this is plain well-formedness of the graph below
    [l]: no dangling address, brackets where a [BracketAstNode] is declared,
    no cycle. *)
#[warnings="-register-all"]
Inductive repr (lo : nat) (s : store) : loc → AstNode → Prop :=
| repr_text l len :
    objects s !! l = Some (OText len) → repr lo s l (NText len)
| repr_bracket l b :
    objects s !! l = Some (OBracket (bracket_length b)) →
    repr lo s l (NBracket b)
| repr_invalid l len u :
    objects s !! l = Some (OInvalidBracket len u) →
    repr lo s l (NInvalidBracket len u)
| repr_pair l len cat ob ch cb u b cht cbt :
    lo ≤ l →
    objects s !! l = Some (OPair len cat ob ch cb u) →
    objects s !! ob = Some (OBracket (bracket_length b)) →
    option_Forall2 (repr lo s) ch cht →
    option_Forall2
      (λ c b', objects s !! c = Some (OBracket (bracket_length b'))) cb cbt →
    repr lo s l (NPair len cat b cht cbt u)
| repr_list l imm len h cs u ts :
    lo ≤ l →
    objects s !! l = Some (OList imm len h cs u) →
    Forall2 (repr lo s) cs ts →
    repr lo s l (NList imm len h ts u).




(** The primitive effects every member of ast.ts is made of: allocating an
    object, assigning the non-readonly fields of a List, interning a
    bracket. *)
Inductive prim_step : store → store → Prop :=
| step_new o s : prim_step s (new o s).2
| step_assign l i len h cs u len' cs' u' s :
    objects s !! l = Some (OList i len h cs u) →
    prim_step s (write l (OList i len' h cs' u') s).2
| step_intern length s : prim_step s (BracketAstNode_create length s).2.

Definition reachable (s : store) : Prop := rtc prim_step empty_store s.

(** ** Words of the specification *)

(** "Left-to-right sum" and "union" of the children's aggregates. *)
Definition lengthSum (ls : list Length) : Length :=
  match ls with
  | [] => lengthZero
  | l :: ls' => foldl lengthAdd l ls'
  end.

Definition unionAll (us : list SmallImmutableSet) : SmallImmutableSet := ⋃ us.

(** "Repeatedly taking the last child while the current node is a List with
    at least one child". *)
Definition nonEmptyList (n : AstNode) : Prop :=
  kind n = KList ∧ children n ≠ [].

Inductive lastChildChain : AstNode → AstNode → Prop :=
| chain_stop n : ¬ nonEmptyList n → lastChildChain n n
| chain_step n c m :
    nonEmptyList n → last (children n) = Some c →
    lastChildChain c m → lastChildChain n m.

(** A List's aggregates agree with its current children (store layer). *)
Definition aggregates_consistent (s : store) (this : loc) : Prop :=
  ∃ i len h cs u nodes,
    objects s !! this = Some (OList i len h cs u) ∧
    Forall2 (λ c o, objects s !! c = Some o) cs nodes ∧
    len = lengthSum (obj_length <$> nodes) ∧
    u = unionAll (obj_unopenedBrackets <$> nodes).

(** The same on trees, at every level: the invariant of the data model. *)
Fixpoint consistent (n : AstNode) : Prop :=
  match n with
  | NPair len _ ob child cb u =>
      len = computeLength ob child cb ∧
      u = match child with Some c => unopenedBrackets c | None => ∅ end ∧
      match child with Some c => consistent c | None => True end
  | NList _ len _ cs u =>
      len = lengthSum (node_length <$> cs) ∧
      u = unionAll (unopenedBrackets <$> cs) ∧
      (fix all (cs : list AstNode) : Prop :=
         match cs with
         | [] => True
         | c :: cs' => consistent c ∧ all cs'
         end) cs
  | _ => True
  end.



(** The leaves of a tree, in document order. *)
Fixpoint leaves (n : AstNode) : list AstNode :=
  match n with
  | NPair _ _ openingBracket child closingBracket _ =>
      [NBracket openingBracket]
        ++ match child with Some c => leaves c | None => [] end
        ++ option_list (NBracket <$> closingBracket)
  | NList _ _ _ cs _ =>
      (fix all (cs : list AstNode) : list AstNode :=
         match cs with
         | [] => []
         | c :: cs' => leaves c ++ all cs'
         end) cs
  | _ => [n]
  end.

(** "No List node has a List child". *)
Fixpoint noListInList (n : AstNode) : bool :=
  match n with
  | NPair _ _ _ (Some c) _ _ => noListInList c
  | NList _ _ _ cs _ =>
      (fix all (cs : list AstNode) : bool :=
         match cs with
         | [] => true
         | c :: cs' =>
             match c with NList _ _ _ _ _ => false | _ => noListInList c end
             && all cs'
         end) cs
  | _ => true
  end.


(** The tree a deep clone unfolds to: every List is a plain [ListAstNode]. *)
Fixpoint thaw (n : AstNode) : AstNode :=
  match n with
  | NPair len cat ob child cb u =>
      NPair len cat ob
        (match child with Some c => Some (thaw c) | None => None end) cb u
  | NList _ len h cs u => NList false len h (map thaw cs) u
  | _ => n
  end.

(** ** Notions used in the proofs *)

(** A child that [flattenLists] may leave below a List. *)
Definition flatItem (c : AstNode) : bool :=
  match c with NList _ _ _ _ _ => false | _ => noListInList c end.

(** The objects at the addresses of a child array. *)
Definition children_at (s : store) (cs : list loc) (nodes : list obj) : Prop :=
  Forall2 (λ c o, objects s !! c = Some o) cs nodes.

(** [this.f = ...]: the object at [this] replaced. *)
Definition assign (s : store) (this : loc) (o : obj) : store :=
  mkStore (<[this := o]> (objects s)) (cacheByLength s).

(** What a successful mutator leaves: the new child array [cs1] in [this],
    with aggregates that agree with the children when there are any (the
    List not being its own child), and nothing else touched. *)
Definition restructured (s : store) (this : loc) (h : Z)
    (cs1 : list loc) (s' : store) : Prop :=
  ∃ len' u',
    objects s' !! this = Some (OList false len' h cs1 u') ∧
    (this ∉ cs1 → cs1 ≠ [] → aggregates_consistent s' this) ∧
    (∀ l, l ≠ this → objects s' !! l = objects s !! l) ∧
    cacheByLength s' = cacheByLength s.

(** What [deepClone] owes on the graph of a tree [t]: with [size t < fuel]
    it returns; it only allocates; and what it returns unfolds to [thaw t]
    through Pair and List objects allocated by this very call. *)
Definition deepClone_ok (t : AstNode) : Prop :=
  ∀ fuel s l,
    repr 0 s l t → size t < fuel →
    ∃ l' s', deepClone fuel l s = (Ok l', s') ∧
      objects s `prefix_of` objects s' ∧
      cacheByLength s' = cacheByLength s ∧
      repr (length (objects s)) s' l' (thaw t).

(** Every cache entry points at a bracket whose length hashes to its key. *)
Definition cache_inv (s : store) : Prop :=
  ∀ k n, cacheByLength s !! k = Some n →
    ∃ len, objects s !! n = Some (OBracket len) ∧ lengthHash len = k.

(** A computation whose effect on the store is a sequence of primitive
    steps. *)
Definition steps_of {A} (m : M A) : Prop := ∀ s, rtc prim_step s (m s).2.

(** No [ImmutableListAstNode] anywhere in the tree. *)
Fixpoint noImmutableList (n : AstNode) : bool :=
  match n with
  | NPair _ _ _ (Some c) _ _ => noImmutableList c
  | NList i _ _ cs _ =>
      negb i &&
      (fix all (cs : list AstNode) : bool :=
         match cs with
         | [] => true
         | c :: cs' => noImmutableList c && all cs'
         end) cs
  | _ => true
  end.

(** What [makeLastElementMutable] and [makeFirstElementMutable] leave for
    the slot [idx] of the mutable List [this]: the slot holds [m]; if the
    child [c] it held was an immutable List, [m] is a fresh mutable List with
    the fields and children of [c]; otherwise [m] is [c] and nothing
    changed.  The aggregates and the listHeight of [this] are as before, and
    no object other than [this] is touched. *)
Definition slot_made_mutable (s : store) (this : loc) (idx : nat) (m : loc)
    (s' : store) : Prop :=
  ∃ len h cs u c oc,
    objects s !! this = Some (OList false len h cs u) ∧
    cs !! idx = Some c ∧ objects s !! c = Some oc ∧
    match oc with
    | OList true lc hc csc uc =>
        m = length (objects s) ∧
        objects s' !! m = Some (OList false lc hc csc uc) ∧
        objects s' !! this = Some (OList false len h (<[idx := m]> cs) u)
    | _ => m = c ∧ s' = s
    end ∧
    (∀ x o, x ≠ this → objects s !! x = Some o → objects s' !! x = Some o) ∧
    cacheByLength s' = cacheByLength s.

(** What [flattenLists] owes on the store for the graph of a tree [t]. *)
Definition flattenLists_ok (t : AstNode) : Prop :=
  ∀ fuel s l,
    repr 0 s l t → size t < fuel →
    ∃ l' s', flattenLists_store fuel l s = (Ok l', s') ∧
      objects s `prefix_of` objects s' ∧
      cacheByLength s' = cacheByLength s ∧
      repr 0 s' l' (flattenLists t).

End model.

(** An instance of the [./length] interface for closed examples: extents on
    one line, counted in columns. *)
#[export] Instance columns : LengthOps :=
  {| Length := Z; lengthZero := 0%Z; lengthAdd := Z.add; lengthHash := id |}.


(** ** Closed inputs

    Lengths are columns ([Z], added with [+]); addresses are list positions. *)

(** The nodes of the scenarios of the specification. *)
Definition open_paren : BracketAstNode := mkBracket 1%Z.
Definition closed_pair : AstNode :=
  PairAstNode_create 1 open_paren (Some (NText 1%Z)) (Some open_paren).
Definition open_pair : AstNode :=
  PairAstNode_create 1 open_paren (Some (NText 1%Z)) None.

(** A store with an unmatched closing bracket of category 2 at address 0 and,
    at address 1, a mutable List over it. *)
Definition one_child_store : store :=
  mkStore [OInvalidBracket 1%Z {[2%Z]}; OList false 1%Z 1 [0] {[2%Z]}] ∅.

Definition emptied_store : store :=
  mkStore [OInvalidBracket 1%Z {[2%Z]}; OList false 1%Z 1 [] {[2%Z]}] ∅.

(** A store with a text of length 1 at address 0 and, at address 1, an
    immutable List over it. *)
Definition frozen_store : store :=
  mkStore [OText 1%Z; OList true 1%Z 1 [0] ∅] ∅.

Definition thawed_store : store :=
  mkStore [OText 1%Z; OList true 1%Z 1 [0] ∅; OList false 1%Z 1 [0] ∅] ∅.

Definition thawed_emptied_store : store :=
  mkStore [OText 1%Z; OList true 1%Z 1 [0] ∅; OList false 1%Z 1 [] ∅] ∅.

(** A store with a text at address 0, an immutable List over it at address
    1 and, at address 2, a mutable List whose only child is that List. *)
Definition cow_store : store :=
  mkStore [OText 1%Z; OList true 1%Z 1 [0] ∅; OList false 1%Z 2 [1] ∅] ∅.

Definition frozen_tree : AstNode := NList true 1%Z 1 [NText 1%Z] ∅.

Definition nested_lists : AstNode :=
  ListAstNode_create
    [ListAstNode_create [NText 1%Z; NText 2%Z] true;
     ListAstNode_create [closed_pair] false] false.

Definition interned_once : store := (BracketAstNode_create 1%Z empty_store).2.

(** * Properties *)

Section value_layer.
Context `{LengthOps}.

Lemma intersects_true (a b : SmallImmutableSet) :
  intersects a b = true ↔ ∃ x, x ∈ a ∧ x ∈ b.
Proof.
  unfold intersects. rewrite bool_decide_eq_true. split.
  - intros Hne. apply set_choose_L in Hne as [x Hx]. exists x. set_solver.
  - intros (x & ? & ?). set_solver.
Qed.

Lemma lastChildLoop_List i l h cs u :
  lastChildLoop (NList i l h cs u) =
  match tail cs with
  | Some c => lastChildLoop c
  | None => NList i l h cs u
  end.
Proof.
  simpl. unfold tail.
  match goal with |- default _ (?go cs) = _ =>
    assert (go cs = lastChildLoop <$> last cs) as ->
  end.
  { induction cs as [|a [|b cs] IH]; done. }
  by destruct (last cs).
Qed.

Lemma size_last cs c i l h u :
  last cs = Some c → size c < size (NList i l h cs u).
Proof.
  simpl. induction cs as [|a [|b cs] IH]; intros E; simplify_eq/=; try lia.
  specialize (IH E). lia.
Qed.

(** The loop of the source walks the chain of the specification. *)
Lemma lastChildLoop_chain n : lastChildChain n (lastChildLoop n).
Proof.
  induction n as [n IH] using (induction_ltof1 _ size). unfold ltof in IH.
  destruct n as [| | | |i l h cs u];
    try (apply chain_stop; intros [Hk _]; simpl in Hk; congruence).
  rewrite lastChildLoop_List. unfold tail.
  destruct (last cs) as [c|] eqn:E.
  - eapply chain_step; [|exact E|].
    + split; [done|]. simpl. by intros ->.
    + apply IH. by eapply size_last.
  - apply last_None in E as ->. apply chain_stop. by intros [_ Hc].
Qed.

Lemma lastChildChain_unique n m m' :
  lastChildChain n m → lastChildChain n m' → m = m'.
Proof.
  induction 1 as [n Hn|n c m Hn Hc _ IH]; inversion 1; subst; try done.
  apply IH. congruence.
Qed.

(** C1. [ListAstNode.canBeReused]: [true] on a List without children;
    otherwise [false] when the expected closing categories intersect the
    List's [unopenedBrackets]; otherwise the answer of [canBeReused], on the
    same arguments, of the one node that ends the last-child chain of the
    List. *)
Theorem ListAstNode_canBeReused i l h cs u expected endLineDidChange :
  let this := NList i l h cs u in
  (cs = [] → canBeReused this expected endLineDidChange = true) ∧
  (cs ≠ [] → intersects expected (unopenedBrackets this) = true →
     canBeReused this expected endLineDidChange = false) ∧
  (cs ≠ [] → intersects expected (unopenedBrackets this) = false →
     ∃ m, lastChildChain this m ∧
          (∀ m', lastChildChain this m' → m' = m) ∧
          canBeReused this expected endLineDidChange
          = canBeReused m expected endLineDidChange).
Proof.
  intros this. subst this. split_and!.
  - intros ->. by simp canBeReused.
  - intros Hcs Hi. destruct cs as [|c cs]; [done|].
    simp canBeReused. simpl in Hi. by rewrite Hi.
  - intros Hcs Hi. destruct cs as [|c cs]; [done|].
    exists (lastChildLoop (NList i l h (c :: cs) u)). split_and!.
    + apply lastChildLoop_chain.
    + intros m' Hm'. eapply lastChildChain_unique; [exact Hm'|].
      apply lastChildLoop_chain.
    + simp canBeReused. simpl in Hi. by rewrite Hi.
Qed.

(** C2. [PairAstNode.canBeReused]: [false] when the closing bracket is
    absent, whatever the arguments; otherwise [false] when the expected
    closing categories intersect the Pair's [unopenedBrackets]; otherwise
    [true]. *)
Theorem PairAstNode_canBeReused len category openingBracket child
    closingBracket u expected endLineDidChange :
  let this := NPair len category openingBracket child closingBracket u in
  (closingBracket = None →
     canBeReused this expected endLineDidChange = false) ∧
  (closingBracket ≠ None →
     intersects expected (unopenedBrackets this) = true →
     canBeReused this expected endLineDidChange = false) ∧
  (closingBracket ≠ None →
     intersects expected (unopenedBrackets this) = false →
     canBeReused this expected endLineDidChange = true).
Proof.
  intros this. subst this. simpl.
  destruct closingBracket as [cb|]; simp canBeReused; split_and!; try done.
  - by intros _ ->.
  - by intros _ ->.
Qed.

Lemma aggregate_fst {A} (len : A → Length) unopened item0 (items : list A) :
  (aggregate len unopened item0 (item0 :: items)).1
  = lengthSum (len <$> item0 :: items).
Proof.
  unfold aggregate. simpl. rewrite drop_0.
  generalize (unopened item0). generalize (len item0).
  induction items as [|a items IH]; intros l u; simpl; [done|]. apply IH.
Qed.

Lemma aggregate_snd {A} (len : A → Length) unopened item0 (items : list A) :
  (aggregate len unopened item0 (item0 :: items)).2
  = unionAll (unopened <$> item0 :: items).
Proof.
  unfold aggregate, unionAll, merge. simpl. rewrite drop_0.
  generalize (unopened item0). generalize (len item0).
  induction items as [|a items IH]; intros l u; simpl.
  - by rewrite (right_id_L ∅ (∪)).
  - by rewrite IH, (assoc_L (∪)).
Qed.

Lemma ListAstNode_create_fields items immutable :
  ListAstNode_create items immutable
  = NList immutable (lengthSum (node_length <$> items))
      (match items with [] => 0 | item0 :: _ => listHeight item0 + 1 end)%Z
      items (unionAll (unopenedBrackets <$> items)).
Proof.
  destruct items as [|item0 items]; [done|].
  unfold ListAstNode_create.
  pose proof (aggregate_fst node_length unopenedBrackets item0 items) as Hl.
  pose proof (aggregate_snd node_length unopenedBrackets item0 items) as Hu.
  destruct (aggregate node_length unopenedBrackets item0 (item0 :: items))
    as [length u]. simpl in Hl, Hu. by subst.
Qed.

(** C7. [ListAstNode.create]: on no items a List of height 0, zero length
    and empty [unopenedBrackets]; on items a List over these items of height
    [items[0].listHeight + 1], whose length is the left-to-right sum of the
    items' lengths and whose [unopenedBrackets] is the union of the items'
    sets; the result is of the immutable class exactly when the flag is
    set. *)
Theorem ListAstNode_create_spec items immutable :
  ∃ length h u,
    ListAstNode_create items immutable = NList immutable length h items u ∧
    length = lengthSum (node_length <$> items) ∧
    u = unionAll (unopenedBrackets <$> items) ∧
    match items with
    | [] => h = 0%Z ∧ length = lengthZero ∧ u = ∅
    | item0 :: _ => h = (listHeight item0 + 1)%Z
    end.
Proof.
  rewrite ListAstNode_create_fields. eexists _, _, _.
  split_and!; try done. by destruct items.
Qed.

Lemma size_elem c cs i l h u : c ∈ cs → size c < size (NList i l h cs u).
Proof.
  simpl. induction 1 as [c cs|c d cs _ IH]; simpl; lia.
Qed.

(** Induction on trees, with the hypothesis for every child of a List. *)
Lemma AstNode_induction (P : AstNode → Prop) :
  (∀ len, P (NText len)) →
  (∀ b, P (NBracket b)) →
  (∀ len u, P (NInvalidBracket len u)) →
  (∀ len cat ob ch cb u, (∀ c, ch = Some c → P c) → P (NPair len cat ob ch cb u)) →
  (∀ i len h cs u, Forall P cs → P (NList i len h cs u)) →
  ∀ n, P n.
Proof.
  intros HT HB HI HP HL n.
  induction n as [n IH] using (induction_ltof1 _ size). unfold ltof in IH.
  destruct n as [len|b|len u|len cat ob ch cb u|i len h cs u]; auto.
  - apply HP. intros c ->. apply IH. simpl. lia.
  - apply HL, Forall_forall. intros c Hc. apply IH. by apply size_elem.
Qed.

Lemma flattenLists_List i l h cs u :
  flattenLists (NList i l h cs u)
  = ListAstNode_create (cs ≫= λ c, pushed (flattenLists c)) false.
Proof. reflexivity. Qed.

Lemma consistent_List i len h cs u :
  consistent (NList i len h cs u) ↔
  len = lengthSum (node_length <$> cs) ∧
  u = unionAll (unopenedBrackets <$> cs) ∧
  Forall consistent cs.
Proof.
  simpl. do 2 (apply and_iff_compat_l).
  induction cs as [|c cs IH]; [by split|].
  rewrite Forall_cons. by rewrite IH.
Qed.

Lemma noListInList_List i len h cs u :
  noListInList (NList i len h cs u) = forallb flatItem cs.
Proof. simpl. induction cs as [|c cs IH]; [done|]. simpl. by rewrite IH. Qed.

(** One pass already leaves no List below a List. *)
Lemma flattenLists_noListInList n : noListInList (flattenLists n) = true.
Proof.
  induction n as [| | |len cat ob ch cb u IH|i len h cs u IH]
    using AstNode_induction; try done.
  - destruct ch as [c|]; simpl; [by apply IH|done].
  - rewrite flattenLists_List, ListAstNode_create_fields, noListInList_List.
    apply Is_true_true, forallb_True, Forall_bind.
    eapply Forall_impl; [exact IH|].
    intros c Hc. simpl in Hc |- *. destruct (flattenLists c) eqn:E; simpl;
      try (by apply Forall_singleton, Is_true_true).
    rewrite noListInList_List in Hc. by apply forallb_True, Is_true_true.
Qed.

(** A flattened tree has consistent aggregates, whatever it was built from. *)
Lemma flattenLists_consistent n : consistent (flattenLists n).
Proof.
  induction n as [| | |len cat ob ch cb u IH|i len h cs u IH]
    using AstNode_induction; try done.
  - destruct ch as [c|]; simpl; [|done]. split_and!; try done. by apply IH.
  - rewrite flattenLists_List, ListAstNode_create_fields, consistent_List.
    split_and!; try done. apply Forall_bind. eapply Forall_impl; [exact IH|].
    intros c Hc. simpl in Hc |- *. destruct (flattenLists c) eqn:E; simpl;
      try (by apply Forall_singleton).
    by apply consistent_List in Hc as (_ & _ & Hc).
Qed.

Section with_laws.
Context `{!LengthLaws}.








End with_laws.
End value_layer.

Section store_layer.
Context `{LengthOps}.

Implicit Types (s : store) (l this node : loc) (o : obj).

Lemma bind_Ok {A B} (m : M A) (f : A → M B) s (a : A) s' :
  m s = (Ok a, s') → (m ≫= f) s = f a s'.
Proof. unfold mbind, M_bind. by intros ->. Qed.

Lemma bind_assoc {A B C} (m : M A) (f : A → M B) (g : B → M C) s :
  (m ≫= λ a, f a ≫= g) s = ((m ≫= f) ≫= g) s.
Proof. unfold mbind, M_bind. by destruct (m s) as [[] ?]. Qed.

Lemma load_Some s l o : objects s !! l = Some o → load l s = (Ok o, s).
Proof. unfold load. by intros ->. Qed.

(** C9. [toMutable] on an [ImmutableListAstNode] allocates a new, mutable
    List with the same length, listHeight and [unopenedBrackets] and the same
    child addresses in the same order, and touches no existing object; on
    every other node (a leaf, a Pair, a mutable List) it returns the node
    itself and leaves the store as it is. *)
Theorem toMutable_spec s this o :
  objects s !! this = Some o →
  match o with
  | OList true len h cs u =>
      ∃ l' s', toMutable this s = (Ok l', s') ∧
        objects s !! l' = None ∧
        objects s' !! l' = Some (OList false len h cs u) ∧
        (∀ x, x ≠ l' → objects s' !! x = objects s !! x) ∧
        cacheByLength s' = cacheByLength s
  | _ => toMutable this s = (Ok this, s)
  end.
Proof.
  intros Ho. unfold toMutable. rewrite (bind_Ok _ _ _ _ _ (load_Some _ _ _ Ho)).
  destruct o as [| | | |[] len h cs u]; try done.
  eexists _, _. split; [done|]. simpl. split_and!.
  - by apply lookup_ge_None.
  - by rewrite lookup_app_r, Nat.sub_diag.
  - intros x Hx. destruct (decide (x < length (objects s))).
    + by rewrite lookup_app_l.
    + rewrite !(proj2 (lookup_ge_None _ _)); [done|lia|].
      rewrite length_app. simpl. lia.
  - done.
Qed.

(** *** Running the List members *)

Lemma get_children_run s this i len h cs u :
  objects s !! this = Some (OList i len h cs u) →
  get_children this s = (Ok cs, s).
Proof.
  intros Ho. unfold get_children. by rewrite (bind_Ok _ _ _ _ _ (load_Some _ _ _ Ho)).
Qed.

Lemma set_children_run s this i len h cs u cs' :
  objects s !! this = Some (OList i len h cs u) →
  set_children this cs' s = (Ok (), assign s this (OList i len h cs' u)).
Proof.
  intros Ho. unfold set_children. by rewrite (bind_Ok _ _ _ _ _ (load_Some _ _ _ Ho)).
Qed.

Lemma throwIfImmutable_run s this i len h cs u :
  objects s !! this = Some (OList i len h cs u) →
  throwIfImmutable this s
  = (if i then Throw "this instance is immutable" else Ok (), s).
Proof.
  intros Ho. unfold throwIfImmutable.
  rewrite (bind_Ok _ _ _ _ _ (load_Some _ _ _ Ho)). by destruct i.
Qed.

Lemma for_each_load s cs nodes :
  children_at s cs nodes → for_each load cs s = (Ok nodes, s).
Proof.
  induction 1 as [|c o cs nodes Hc _ IH]; [done|]. simpl.
  rewrite (bind_Ok _ _ _ _ _ (load_Some _ _ _ Hc)).
  by rewrite (bind_Ok _ _ _ _ _ IH).
Qed.

Lemma assign_lookup_eq s this o o' :
  objects s !! this = Some o → objects (assign s this o') !! this = Some o'.
Proof. intros Ho. simpl. apply list_lookup_insert_eq. by eapply lookup_lt_Some. Qed.

Lemma assign_lookup_ne s this o' l :
  l ≠ this → objects (assign s this o') !! l = objects s !! l.
Proof. intros Hne. simpl. by apply list_lookup_insert_ne. Qed.

Lemma handleChildrenChanged_run s this len h cs u nodes :
  objects s !! this = Some (OList false len h cs u) →
  children_at s cs nodes →
  handleChildrenChanged this s
  = (Ok (),
     match cs with
     | [] => s
     | _ :: _ =>
         assign s this
           (OList false (lengthSum (obj_length <$> nodes)) h cs
              (unionAll (obj_unopenedBrackets <$> nodes)))
     end).
Proof.
  intros Ho Hcs. unfold handleChildrenChanged.
  rewrite (bind_Ok _ _ _ _ _ (throwIfImmutable_run _ _ _ _ _ _ _ Ho)).
  rewrite (bind_Ok _ _ _ _ _ (get_children_run _ _ _ _ _ _ _ Ho)).
  destruct Hcs as [|c o cs nodes Hc Hcs]; [done|].
  assert (children_at s (c :: cs) (o :: nodes)) as Hall by by constructor.
  rewrite (bind_Ok _ _ _ _ _ (for_each_load _ _ _ Hall)).
  pose proof (aggregate_fst obj_length obj_unopenedBrackets o nodes) as Hl.
  pose proof (aggregate_snd obj_length obj_unopenedBrackets o nodes) as Hu.
  destruct (aggregate obj_length obj_unopenedBrackets o (o :: nodes)) as [l' u'].
  simpl in Hl, Hu. subst.
  by rewrite (bind_Ok _ _ _ _ _ (load_Some _ _ _ Ho)).
Qed.

Lemma assign_assign s this o o' :
  assign (assign s this o) this o' = assign s this o'.
Proof. unfold assign. simpl. by rewrite list_insert_insert_eq. Qed.

(** The tail shared by the four mutators: store the new child array, then
    [handleChildrenChanged]. *)
Lemma restructure_run s this len h cs u cs1 nodes1 :
  objects s !! this = Some (OList false len h cs u) →
  children_at (assign s this (OList false len h cs1 u)) cs1 nodes1 →
  (set_children this cs1;; handleChildrenChanged this) s
  = (Ok (),
     assign s this
       match cs1 with
       | [] => OList false len h [] u
       | _ :: _ =>
           OList false (lengthSum (obj_length <$> nodes1)) h cs1
             (unionAll (obj_unopenedBrackets <$> nodes1))
       end).
Proof.
  intros Ho Hcs.
  rewrite (bind_Ok _ _ _ _ _ (set_children_run _ _ _ _ _ _ _ cs1 Ho)).
  erewrite handleChildrenChanged_run; [|by eapply assign_lookup_eq|done].
  destruct cs1; [done|]. by rewrite assign_assign.
Qed.

Lemma children_at_exists s cs :
  Forall (λ c, is_Some (objects s !! c)) cs → ∃ nodes, children_at s cs nodes.
Proof.
  induction 1 as [|c cs [o Ho] _ [nodes IH]]; [exists []; constructor|].
  exists (o :: nodes). by constructor.
Qed.

Lemma assign_valid s this o l :
  is_Some (objects s !! l) → is_Some (objects (assign s this o) !! l).
Proof.
  intros Hl. apply lookup_lt_is_Some. simpl. rewrite length_insert.
  by apply lookup_lt_is_Some.
Qed.

Lemma children_at_assign s this o cs nodes :
  this ∉ cs → children_at (assign s this o) cs nodes ↔ children_at s cs nodes.
Proof.
  intros Hthis. unfold children_at. revert nodes.
  induction cs as [|c cs IH]; intros nodes.
  - split; intros ->%Forall2_nil_inv_l; constructor.
  - apply not_elem_of_cons in Hthis as [? ?].
    split; intros (n & nodes' & Hc & Hcs & ->)%Forall2_cons_inv_l;
      (constructor; [|by apply IH]).
    + by rewrite assign_lookup_ne in Hc.
    + by rewrite assign_lookup_ne.
Qed.

Lemma mutator_run s this len h cs u cs1 :
  objects s !! this = Some (OList false len h cs u) →
  Forall (λ c, is_Some (objects s !! c)) cs1 →
  ∃ s', (set_children this cs1;; handleChildrenChanged this) s = (Ok (), s') ∧
        restructured s this h cs1 s'.
Proof.
  intros Ho Hvalid.
  destruct (children_at_exists (assign s this (OList false len h cs1 u)) cs1)
    as [nodes1 Hnodes1].
  { eapply Forall_impl; [exact Hvalid|]. intros c. apply assign_valid. }
  rewrite (restructure_run _ _ _ _ _ _ _ _ Ho Hnodes1).
  eexists; split; [done|].
  destruct cs1 as [|c1 cs1].
  - eexists _, _. split_and!.
    + by eapply assign_lookup_eq.
    + done.
    + intros l Hl. by apply assign_lookup_ne.
    + done.
  - eexists _, _. split_and!.
    + by eapply assign_lookup_eq.
    + intros Hthis _. eexists _, _, _, _, _, nodes1. split_and!; try done.
      * by eapply assign_lookup_eq.
      * apply children_at_assign; [done|]. by eapply children_at_assign.
    + intros l Hl. by apply assign_lookup_ne.
    + done.
Qed.

(** Removing the only child: the early return of [handleChildrenChanged]
    leaves the length and [unopenedBrackets] of the List as they were. *)
Lemma removing_only_child s this len h c u :
  objects s !! this = Some (OList false len h [c] u) →
  unappendChild this s = (Ok (Some c), assign s this (OList false len h [] u)) ∧
  unprependChild this s = (Ok (Some c), assign s this (OList false len h [] u)).
Proof.
  intros Ho. unfold unappendChild, unprependChild.
  rewrite !(bind_Ok _ _ _ _ _ (throwIfImmutable_run _ _ _ _ _ _ _ Ho)).
  rewrite !(bind_Ok _ _ _ _ _ (get_children_run _ _ _ _ _ _ _ Ho)).
  assert (children_at (assign s this (OList false len h [] u)) [] []) as Hnil
    by constructor.
  pose proof (restructure_run _ _ _ _ _ _ [] [] Ho Hnil) as Hrun.
  simpl removelast. simpl drop. simpl last. simpl head.
  by rewrite !bind_assoc, !(bind_Ok _ _ _ _ _ Hrun).
Qed.

Lemma elem_of_removelast {A} (x : A) (k : list A) :
  x ∈ removelast k → x ∈ k.
Proof.
  induction k as [|a [|b k] IH]; simpl; [done|by intros ?%elem_of_nil|].
  intros [->|Hx]%elem_of_cons; [left|right; by apply IH].
Qed.

Section mutators.
Context s this len h cs u
  (Hthis : objects s !! this = Some (OList false len h cs u))
  (Hcs : Forall (λ c, is_Some (objects s !! c)) cs).

Lemma appendChildOfSameHeight_run node :
  is_Some (objects s !! node) →
  ∃ s', appendChildOfSameHeight this node s = (Ok (), s') ∧
        restructured s this h (cs ++ [node]) s'.
Proof.
  intros Hnode. unfold appendChildOfSameHeight.
  rewrite (bind_Ok _ _ _ _ _ (throwIfImmutable_run _ _ _ _ _ _ _ Hthis)).
  rewrite (bind_Ok _ _ _ _ _ (get_children_run _ _ _ _ _ _ _ Hthis)).
  apply (mutator_run _ _ _ _ _ _ _ Hthis).
  apply Forall_app. split; [done|]. by apply Forall_singleton.
Qed.

Lemma prependChildOfSameHeight_run node :
  is_Some (objects s !! node) →
  ∃ s', prependChildOfSameHeight this node s = (Ok (), s') ∧
        restructured s this h (node :: cs) s'.
Proof.
  intros Hnode. unfold prependChildOfSameHeight.
  rewrite (bind_Ok _ _ _ _ _ (throwIfImmutable_run _ _ _ _ _ _ _ Hthis)).
  rewrite (bind_Ok _ _ _ _ _ (get_children_run _ _ _ _ _ _ _ Hthis)).
  apply (mutator_run _ _ _ _ _ _ _ Hthis). by constructor.
Qed.

Lemma unappendChild_run :
  ∃ s', unappendChild this s = (Ok (last cs), s') ∧
        restructured s this h (removelast cs) s'.
Proof.
  unfold unappendChild.
  rewrite (bind_Ok _ _ _ _ _ (throwIfImmutable_run _ _ _ _ _ _ _ Hthis)).
  rewrite (bind_Ok _ _ _ _ _ (get_children_run _ _ _ _ _ _ _ Hthis)).
  destruct (mutator_run _ _ _ _ _ _ (removelast cs) Hthis) as (s' & Hrun & Hs').
  { rewrite Forall_forall in Hcs. apply Forall_forall. intros c Hc.
    by apply Hcs, elem_of_removelast. }
  exists s'. split; [|done].
  by rewrite bind_assoc, (bind_Ok _ _ _ _ _ Hrun).
Qed.

Lemma unprependChild_run :
  ∃ s', unprependChild this s = (Ok (head cs), s') ∧
        restructured s this h (drop 1 cs) s'.
Proof.
  unfold unprependChild.
  rewrite (bind_Ok _ _ _ _ _ (throwIfImmutable_run _ _ _ _ _ _ _ Hthis)).
  rewrite (bind_Ok _ _ _ _ _ (get_children_run _ _ _ _ _ _ _ Hthis)).
  destruct (mutator_run _ _ _ _ _ _ (drop 1 cs) Hthis) as (s' & Hrun & Hs').
  { by apply Forall_drop. }
  exists s'. split; [|done].
  by rewrite bind_assoc, (bind_Ok _ _ _ _ _ Hrun).
Qed.

End mutators.

(** X1. Every structural mutator, and [handleChildrenChanged], called on
    an immutable List throws "this instance is immutable" and leaves the
    store exactly as it was. *)
Theorem immutable_List_rejects_mutation s this len h cs u node :
  objects s !! this = Some (OList true len h cs u) →
  appendChildOfSameHeight this node s = (Throw "this instance is immutable", s) ∧
  prependChildOfSameHeight this node s = (Throw "this instance is immutable", s) ∧
  unappendChild this s = (Throw "this instance is immutable", s) ∧
  unprependChild this s = (Throw "this instance is immutable", s) ∧
  handleChildrenChanged this s = (Throw "this instance is immutable", s).
Proof.
  intros Ho.
  pose proof (throwIfImmutable_run _ _ _ _ _ _ _ Ho) as Ht. simpl in Ht.
  unfold appendChildOfSameHeight, prependChildOfSameHeight, unappendChild,
    unprependChild, handleChildrenChanged, mbind, M_bind.
  by rewrite Ht.
Qed.

(** X2. On a mutable List whose children exist, each structural mutator
    succeeds, returns what it removed if it removes, and leaves the List with
    the new child array: the old one with [node] appended or prepended, or
    with its last or first child removed.  When that array is not empty,
    the length and [unopenedBrackets] of the List are then the left-to-right
    sum and the union over the children (the List not being its own child).
    No other object and no cache entry changes. *)
Theorem mutators_recompute_aggregates s this node len h cs u :
  objects s !! this = Some (OList false len h cs u) →
  Forall (λ c, is_Some (objects s !! c)) cs →
  is_Some (objects s !! node) →
  (∃ s', appendChildOfSameHeight this node s = (Ok (), s') ∧
         restructured s this h (cs ++ [node]) s') ∧
  (∃ s', prependChildOfSameHeight this node s = (Ok (), s') ∧
         restructured s this h (node :: cs) s') ∧
  (∃ s', unappendChild this s = (Ok (last cs), s') ∧
         restructured s this h (removelast cs) s') ∧
  (∃ s', unprependChild this s = (Ok (head cs), s') ∧
         restructured s this h (drop 1 cs) s').
Proof.
  intros Ho Hcs Hnode. split_and!.
  - by eapply appendChildOfSameHeight_run.
  - by eapply prependChildOfSameHeight_run.
  - by eapply unappendChild_run.
  - by eapply unprependChild_run.
Qed.

(** A List emptied by a mutator keeps its old aggregates, so it is
    consistent only if its length was zero already. *)
Lemma emptied_store_inconsistent this s len h u :
  objects s !! this = Some (OList false len h [] u) →
  len ≠ lengthZero → ¬ aggregates_consistent s this.
Proof.
  intros Ho Hlen (i & len' & h' & cs & u' & nodes & Ho' & Hcs & Hl & _).
  rewrite Ho in Ho'. injection Ho' as <- <- <- <- <-.
  apply Forall2_nil_inv_l in Hcs as ->. by apply Hlen.
Qed.

(** *** Stores and the trees they unfold to *)

Lemma Forall2_Forall_impl {A B} (P : B → Prop) (R R' : A → B → Prop) xs ys :
  Forall P ys → Forall2 R xs ys →
  (∀ x y, P y → R x y → R' x y) → Forall2 R' xs ys.
Proof.
  intros HP HR Himpl. induction HR as [|x y xs ys Hxy _ IH]; [constructor|].
  apply Forall_cons in HP as [? ?]. constructor; auto.
Qed.

Lemma repr_is_Some lo s l t : repr lo s l t → is_Some (objects s !! l).
Proof. inversion 1; eauto. Qed.

Lemma repr_children_valid lo s cs ts :
  Forall2 (repr lo s) cs ts → Forall (λ c, is_Some (objects s !! c)) cs.
Proof. induction 1; constructor; [by eapply repr_is_Some|done]. Qed.

(** The getters of the two layers agree. *)
Lemma repr_fields lo s l t o :
  repr lo s l t → objects s !! l = Some o →
  obj_kind o = kind t ∧ obj_length o = node_length t ∧
  obj_unopenedBrackets o = unopenedBrackets t.
Proof. inversion 1; intros; by simplify_eq. Qed.

Lemma repr_children_at lo s cs ts :
  Forall2 (repr lo s) cs ts →
  ∃ nodes, children_at s cs nodes ∧
    obj_length <$> nodes = node_length <$> ts ∧
    obj_unopenedBrackets <$> nodes = unopenedBrackets <$> ts.
Proof.
  induction 1 as [|c t cs ts Hc _ (nodes & ? & Hl & Hu)].
  - exists []. by split; [constructor|].
  - destruct (repr_is_Some _ _ _ _ Hc) as [o Ho].
    destruct (repr_fields _ _ _ _ _ Hc Ho) as (_ & Hl' & Hu').
    exists (o :: nodes). split; [by constructor|].
    rewrite !fmap_cons. by rewrite Hl, Hu, Hl', Hu'.
Qed.

(** So do the two readings of "the aggregates agree with the children". *)
Lemma repr_aggregates_consistent lo s l i len h ts u :
  repr lo s l (NList i len h ts u) → consistent (NList i len h ts u) →
  aggregates_consistent s l.
Proof.
  intros Hr (-> & -> & _)%consistent_List. inversion Hr; subst.
  destruct (repr_children_at lo s cs ts) as (nodes & Hnodes & Hl & Hu); [done|].
  eexists _, _, _, _, _, nodes.
  split_and!; [eassumption|done|by rewrite Hl|by rewrite Hu].
Qed.

(** [repr] survives allocation, and a lower bound may be lowered. *)
Lemma repr_mono t :
  ∀ lo lo' s s' l,
    lo' ≤ lo → objects s `prefix_of` objects s' →
    repr lo s l t → repr lo' s' l t.
Proof.
  induction t as [| | |len cat ob ch cb u IH|i len h cs u IH]
    using AstNode_induction; intros lo lo' s s' l Hlo Hpre Hr;
    inversion Hr; subst.
  - apply repr_text. by eapply prefix_lookup_Some.
  - apply repr_bracket. by eapply prefix_lookup_Some.
  - apply repr_invalid. by eapply prefix_lookup_Some.
  - eapply repr_pair.
    + lia.
    + by eapply prefix_lookup_Some.
    + by eapply prefix_lookup_Some.
    + match goal with Hc : option_Forall2 (repr _ _) _ _ |- _ =>
        destruct Hc; constructor end. by eapply IH.
    + match goal with Hc : option_Forall2 _ _ cb |- _ =>
        destruct Hc; constructor end. by eapply prefix_lookup_Some.
  - eapply repr_list; [lia|by eapply prefix_lookup_Some|].
    eapply Forall2_Forall_impl; [exact IH|eassumption|].
    intros x y HP Hxy. by eapply HP.
Qed.

Lemma deepClone_leaf fuel s l o :
  objects s !! l = Some o → obj_is_leaf o = true →
  deepClone (S fuel) l s = (Ok l, s).
Proof.
  intros Ho Hleaf. simpl. rewrite (bind_Ok _ _ _ _ _ (load_Some _ _ _ Ho)).
  by destruct o.
Qed.

Lemma deepClone_S fuel this :
  deepClone (S fuel) this
  = (o ← load this;
     match o with
     | OText _ | OBracket _ | OInvalidBracket _ _ => mret this
     | OPair length category openingBracket child closingBracket u =>
         openingBracket' ← deepClone fuel openingBracket;
         child' ← and_then (deepClone fuel) child;
         closingBracket' ← and_then (deepClone fuel) closingBracket;
         new (OPair length category openingBracket' child' closingBracket' u)
     | OList _ length h cs u =>
         cs' ← clone (deepClone fuel) cs;
         new (OList false length h cs' u)
     end).
Proof. done. Qed.

Lemma new_run s o :
  new o s = (Ok (length (objects s)),
             mkStore (objects s ++ [o]) (cacheByLength s)).
Proof. done. Qed.

Lemma clone_ok fuel lo ts :
  Forall (λ t, size t < fuel ∧ deepClone_ok t) ts →
  ∀ cs s,
    Forall2 (repr 0 s) cs ts → lo ≤ length (objects s) →
    ∃ cs' s', clone (deepClone fuel) cs s = (Ok cs', s') ∧
      objects s `prefix_of` objects s' ∧
      cacheByLength s' = cacheByLength s ∧
      Forall2 (repr lo s') cs' (thaw <$> ts).
Proof.
  unfold clone. induction 1 as [|t ts [Hsize Ht] _ IH]; intros cs s Hcs Hlo.
  - apply Forall2_nil_inv_r in Hcs as ->. exists [], s.
    split_and!; done || constructor.
  - apply Forall2_cons_inv_r in Hcs as (c & cs0 & Hc & Hcs & ->).
    destruct (Ht fuel s c Hc Hsize) as (c' & s1 & Hrun & Hpre & Hcache & Hc').
    destruct (IH cs0 s1) as (cs' & s2 & Hrun' & Hpre' & Hcache' & Hcs').
    { eapply Forall2_impl; [exact Hcs|]. intros x y.
      by apply repr_mono. }
    { apply prefix_length in Hpre. lia. }
    exists (c' :: cs'), s2. simpl.
    rewrite (bind_Ok _ _ _ _ _ Hrun), (bind_Ok _ _ _ _ _ Hrun').
    split_and!; [done|by etrans|congruence|].
    constructor; [|done]. eapply repr_mono; [|exact Hpre'|exact Hc']. done.
Qed.

Lemma deepClone_correct t : deepClone_ok t.
Proof.
  induction t as [len|b|len u|len cat b cht cbt u IH|i len h ts u IH]
    using AstNode_induction; intros fuel s l Hr Hfuel;
    destruct fuel as [|fuel]; try (simpl in Hfuel; lia); inversion Hr; subst.
  - exists l, s. split_and!; [by eapply deepClone_leaf|done|done|by constructor].
  - exists l, s. split_and!; [by eapply deepClone_leaf|done|done|by constructor].
  - exists l, s. split_and!; [by eapply deepClone_leaf|done|done|by constructor].
  - destruct fuel as [|fuel]; [destruct cht; simpl in Hfuel; lia|].
    assert (∃ ch' s1, and_then (deepClone (S fuel)) ch s = (Ok ch', s1) ∧
              objects s `prefix_of` objects s1 ∧
              cacheByLength s1 = cacheByLength s ∧
              option_Forall2 (repr (length (objects s)) s1) ch'
                (match cht with Some c => Some (thaw c) | None => None end))
      as (ch' & s1 & Hrun & Hpre & Hcache & Hch').
    { match goal with Hopt : option_Forall2 (repr _ _) _ _ |- _ =>
        destruct Hopt as [c tc Hc|] end.
      - destruct (IH tc eq_refl (S fuel) s c Hc) as (c' & s1 & Hrun & ? & ? & ?);
          [simpl in Hfuel; lia|].
        exists (Some c'), s1. simpl. rewrite (bind_Ok _ _ _ _ _ Hrun).
        split_and!; try done. by constructor.
      - exists None, s. split_and!; try done. constructor. }
    assert (and_then (deepClone (S fuel)) cb s1 = (Ok cb, s1)
            ∧ option_Forall2
                (λ c b', objects s1 !! c = Some (OBracket (bracket_length b')))
                cb cbt) as [Hrun' Hcb'].
    { match goal with Hopt : option_Forall2 _ cb _ |- _ =>
        destruct Hopt as [c b' Hc|] end; [|split; [done|constructor]].
      eapply prefix_lookup_Some in Hc; [|exact Hpre]. simpl.
      erewrite bind_Ok; [|by eapply deepClone_leaf]. split; [done|by constructor]. }
    eexists _, _. split.
    { rewrite (deepClone_S (S fuel)).
      match goal with Hl : objects s !! l = Some _ |- _ =>
        rewrite (bind_Ok _ _ _ _ _ (load_Some _ _ _ Hl)) end.
      erewrite bind_Ok; [|by eapply deepClone_leaf].
      rewrite (bind_Ok _ _ _ _ _ Hrun), (bind_Ok _ _ _ _ _ Hrun').
      apply new_run. }
    simpl. split_and!; [by apply prefix_app_r|done|].
    eapply repr_pair; simpl.
    + apply prefix_length in Hpre. lia.
    + by rewrite lookup_app_r, Nat.sub_diag.
    + apply lookup_app_l_Some. by eapply prefix_lookup_Some.
    + destruct Hch'; constructor.
      eapply repr_mono; [done| |eassumption]. by apply prefix_app_r.
    + destruct Hcb'; constructor. by apply lookup_app_l_Some.
  - destruct (clone_ok fuel (length (objects s)) ts) with (cs := cs) (s := s)
      as (cs' & s1 & Hrun & Hpre & Hcache & Hcs'); [|done|done|].
    { apply Forall_forall. intros t Ht. split.
      - pose proof (size_elem t ts i len h u Ht). lia.
      - by eapply Forall_forall in IH. }
    eexists _, _. split.
    { rewrite deepClone_S.
      match goal with Hl : objects s !! l = Some _ |- _ =>
        rewrite (bind_Ok _ _ _ _ _ (load_Some _ _ _ Hl)) end.
      rewrite (bind_Ok _ _ _ _ _ Hrun). apply new_run. }
    simpl. split_and!; [by apply prefix_app_r|done|].
    eapply repr_list; simpl.
    + apply prefix_length in Hpre. lia.
    + by rewrite lookup_app_r, Nat.sub_diag.
    + eapply Forall2_impl; [exact Hcs'|]. intros x y.
      apply repr_mono; [done|]. by apply prefix_app_r.
Qed.

(** *** Sharing between a clone and its original *)






(** C10. The [deepClone] of a List, of either class, is a plain
    [ListAstNode]: each of the four structural mutators runs on it to the
    end without throwing. *)
Theorem deepClone_List_mutable s l i len h ts u fuel :
  repr 0 s l (NList i len h ts u) → size (NList i len h ts u) < fuel →
  ∃ l' s',
    deepClone fuel l s = (Ok l', s') ∧
    (∃ cs', objects s' !! l' = Some (OList false len h cs' u)) ∧
    ∀ node, is_Some (objects s' !! node) →
      (∃ s'', appendChildOfSameHeight l' node s' = (Ok (), s'')) ∧
      (∃ s'', prependChildOfSameHeight l' node s' = (Ok (), s'')) ∧
      (∃ r s'', unappendChild l' s' = (Ok r, s'')) ∧
      (∃ r s'', unprependChild l' s' = (Ok r, s'')).
Proof.
  intros Hr Hfuel.
  destruct (deepClone_correct _ fuel s l Hr Hfuel)
    as (l' & s' & Hrun & _ & _ & Hr').
  exists l', s'. split; [done|]. simpl in Hr'. inversion Hr'; subst.
  assert (Forall (λ c, is_Some (objects s' !! c)) cs) as Hcs.
  { by eapply repr_children_valid. }
  split; [eauto|]. intros node Hnode. split_and!.
  - edestruct appendChildOfSameHeight_run as (? & ? & _); eauto.
  - edestruct prependChildOfSameHeight_run as (? & ? & _); eauto.
  - edestruct unappendChild_run as (? & ? & _); eauto.
  - edestruct unprependChild_run as (? & ? & _); eauto.
Qed.

(** *** The intern cache of [BracketAstNode] *)

Lemma create_hit s length n :
  cacheByLength s !! lengthHash length = Some n →
  BracketAstNode_create length s = (Ok n, s).
Proof.
  intros Hk. unfold BracketAstNode_create, cache_get, mbind, M_bind. by rewrite Hk.
Qed.

Lemma create_miss s length :
  cacheByLength s !! lengthHash length = None →
  BracketAstNode_create length s
  = (Ok (List.length (objects s)),
     mkStore (objects s ++ [OBracket length])
       (<[lengthHash length := List.length (objects s)]> (cacheByLength s))).
Proof.
  intros Hk. unfold BracketAstNode_create, cache_get, mbind, M_bind. by rewrite Hk.
Qed.

Lemma prim_step_cache s s' :
  prim_step s s' → cache_inv s →
  cache_inv s' ∧
  ∀ k n, cacheByLength s !! k = Some n → cacheByLength s' !! k = Some n.
Proof.
  intros Hstep Hinv. destruct Hstep as [o s|l i len h cs u len' cs' u' s Hl|length s].
  - split; [|done]. intros k n Hk. destruct (Hinv k n Hk) as (len & Hn & ?).
    exists len. split; [|done]. simpl. by apply lookup_app_l_Some.
  - split; [|done]. intros k n Hk. destruct (Hinv k n Hk) as (len0 & Hn & ?).
    exists len0. split; [|done]. simpl. rewrite list_lookup_insert_ne; [done|].
    intros ->. congruence.
  - destruct (cacheByLength s !! lengthHash length) as [n0|] eqn:Hkey.
    + by rewrite (create_hit _ _ _ Hkey).
    + rewrite (create_miss _ _ Hkey). cbn [snd objects cacheByLength]. split.
      * intros k n Hk. cbn [objects cacheByLength] in Hk |- *.
        destruct (decide (k = lengthHash length)) as [->|Hne].
        -- rewrite lookup_insert_eq in Hk. injection Hk as <-.
           exists length. split; [|done]. by rewrite lookup_app_r, Nat.sub_diag.
        -- rewrite lookup_insert_ne in Hk by done.
           destruct (Hinv k n Hk) as (len & Hn & ?).
           exists len. split; [|done]. by apply lookup_app_l_Some.
      * intros k n Hk. cbn [objects cacheByLength].
        rewrite lookup_insert_ne; [done|]. congruence.
Qed.

Lemma steps_cache s s' :
  rtc prim_step s s' → cache_inv s →
  cache_inv s' ∧
  ∀ k n, cacheByLength s !! k = Some n → cacheByLength s' !! k = Some n.
Proof.
  induction 1 as [s|s s1 s' Hstep _ IH]; intros Hinv; [done|].
  destruct (prim_step_cache _ _ Hstep Hinv) as [Hinv1 Hmono1].
  destruct (IH Hinv1) as [Hinv' Hmono']. split; [done|]. auto.
Qed.

Lemma reachable_cache_inv s : reachable s → cache_inv s.
Proof.
  intros Hs. eapply steps_cache; [exact Hs|]. intros k n Hk.
  cbn [empty_store cacheByLength] in Hk. by rewrite lookup_empty in Hk.
Qed.

(** The members embedded in the store layer are made of primitive steps. *)
Lemma steps_bind {A B} (m : M A) (f : A → M B) :
  steps_of m → (∀ a, steps_of (f a)) → steps_of (m ≫= f).
Proof.
  intros Hm Hf s. specialize (Hm s). unfold mbind, M_bind.
  destruct (m s) as [[a|msg| |] s']; try done.
  etrans; [exact Hm|]. apply Hf.
Qed.

Lemma steps_pure {A} (r : outcome A) : steps_of (λ s, (r, s)).
Proof. intros s. apply rtc_refl. Qed.

Lemma steps_load l : steps_of (load l).
Proof. intros s. unfold load. destruct (objects s !! l); apply rtc_refl. Qed.

Lemma steps_new o : steps_of (new o).
Proof. intros s. apply rtc_once, step_new. Qed.

Lemma steps_for_each {A B} (f : A → M B) arr :
  (∀ a, steps_of (f a)) → steps_of (for_each f arr).
Proof.
  intros Hf. induction arr as [|a arr IH]; simpl; [apply (steps_pure (Ok []))|].
  apply steps_bind; [done|]. intros b. apply steps_bind; [done|].
  intros bs. apply (steps_pure (Ok (b :: bs))).
Qed.

Lemma steps_get_children this : steps_of (get_children this).
Proof.
  apply steps_bind; [apply steps_load|]. intros [| | | |i len h cs u];
    first [apply (steps_pure Stuck)|apply (steps_pure (Ok cs))].
Qed.

Lemma steps_throwIfImmutable this : steps_of (throwIfImmutable this).
Proof.
  apply steps_bind; [apply steps_load|]. intros [| | | |[] len h cs u];
    first [apply (steps_pure Stuck)|apply (steps_pure (Ok ()))
          |apply (steps_pure (Throw "this instance is immutable"))].
Qed.

Lemma steps_set_children this cs' : steps_of (set_children this cs').
Proof.
  intros s. unfold set_children, load, mbind, M_bind.
  destruct (objects s !! this) as [[| | | |i len h cs u]|] eqn:Ho;
    try apply rtc_refl.
  eapply rtc_once, step_assign, Ho.
Qed.

Lemma steps_handleChildrenChanged this : steps_of (handleChildrenChanged this).
Proof.
  apply steps_bind; [apply steps_throwIfImmutable|]. intros _.
  apply steps_bind; [apply steps_get_children|]. intros [|c cs].
  { apply (steps_pure (Ok ())). }
  apply steps_bind; [apply steps_for_each, steps_load|]. intros [|node0 nodes].
  { apply (steps_pure Stuck). }
  destruct (aggregate _ _ _ _) as [length u].
  intros s. unfold load, mbind, M_bind.
  destruct (objects s !! this) as [[| | | |i len h cs0 u0]|] eqn:Ho;
    try apply rtc_refl.
  eapply rtc_once, step_assign, Ho.
Qed.

Lemma steps_deepClone fuel this : steps_of (deepClone fuel this).
Proof.
  revert this. induction fuel as [|fuel IH]; intros this.
  { apply (steps_pure OutOfFuel). }
  rewrite deepClone_S. apply steps_bind; [apply steps_load|].
  assert (∀ x, steps_of (and_then (deepClone fuel) x)) as Hopt.
  { intros [c|]; [|apply (steps_pure (Ok None))].
    apply steps_bind; [done|]. intros c'. apply (steps_pure (Ok (Some c'))). }
  intros [| | |len cat ob ch cb u|i len h cs u];
    try apply (steps_pure (Ok this)).
  - apply steps_bind; [done|]. intros ob'.
    apply steps_bind; [done|]. intros ch'.
    apply steps_bind; [done|]. intros cb'. apply steps_new.
  - apply steps_bind; [by apply steps_for_each|]. intros cs'. apply steps_new.
Qed.

Lemma members_are_steps this node fuel length :
  steps_of (toMutable this) ∧
  steps_of (appendChildOfSameHeight this node) ∧
  steps_of (prependChildOfSameHeight this node) ∧
  steps_of (unappendChild this) ∧
  steps_of (unprependChild this) ∧
  steps_of (deepClone fuel this) ∧
  steps_of (BracketAstNode_create length).
Proof.
  split_and!.
  - apply steps_bind; [apply steps_load|].
    intros [| | | |[] len h cs u]; first [apply steps_new|apply (steps_pure (Ok this))].
  - apply steps_bind; [apply steps_throwIfImmutable|]. intros _.
    apply steps_bind; [apply steps_get_children|]. intros cs.
    apply steps_bind; [apply steps_set_children|]. intros _.
    apply steps_handleChildrenChanged.
  - apply steps_bind; [apply steps_throwIfImmutable|]. intros _.
    apply steps_bind; [apply steps_get_children|]. intros cs.
    apply steps_bind; [apply steps_set_children|]. intros _.
    apply steps_handleChildrenChanged.
  - apply steps_bind; [apply steps_throwIfImmutable|]. intros _.
    apply steps_bind; [apply steps_get_children|]. intros cs.
    apply steps_bind; [apply steps_set_children|]. intros _.
    apply steps_bind; [apply steps_handleChildrenChanged|]. intros _.
    apply (steps_pure (Ok (last cs))).
  - apply steps_bind; [apply steps_throwIfImmutable|]. intros _.
    apply steps_bind; [apply steps_get_children|]. intros cs.
    apply steps_bind; [apply steps_set_children|]. intros _.
    apply steps_bind; [apply steps_handleChildrenChanged|]. intros _.
    apply (steps_pure (Ok (head cs))).
  - apply steps_deepClone.
  - intros s. apply rtc_once, step_intern.
Qed.

(** C6. [BracketAstNode.create] interns by length.  In any store the
    members of ast.ts can have produced, and with a [lengthHash] that tells
    lengths apart, a call with [length1] and a later call with [length2],
    whatever happened in between, return the same object when the lengths
    are equal and distinct objects when they differ; the object returned for
    [length1] is a bracket of that length. *)
Theorem BracketAstNode_create_interned s s1 length1 length2 :
  (∀ a b : Length, lengthHash a = lengthHash b → a = b) →
  reachable s →
  rtc prim_step (BracketAstNode_create length1 s).2 s1 →
  ∃ n1 n2,
    (BracketAstNode_create length1 s).1 = Ok n1 ∧
    (BracketAstNode_create length2 s1).1 = Ok n2 ∧
    objects (BracketAstNode_create length1 s).2 !! n1 = Some (OBracket length1) ∧
    (length1 = length2 → n1 = n2) ∧
    (length1 ≠ length2 → n1 ≠ n2).
Proof.
  intros Hinj Hs Hsteps.
  pose proof (reachable_cache_inv _ Hs) as Hinv.
  destruct (prim_step_cache _ _ (step_intern length1 s) Hinv) as [Hinv0 _].
  assert (∃ n1, (BracketAstNode_create length1 s).1 = Ok n1 ∧
            cacheByLength (BracketAstNode_create length1 s).2
              !! lengthHash length1 = Some n1) as (n1 & Hn1 & Hk1).
  { destruct (cacheByLength s !! lengthHash length1) as [n|] eqn:Hkey.
    - exists n. by rewrite (create_hit _ _ _ Hkey).
    - eexists. rewrite (create_miss _ _ Hkey).
      cbn [fst snd objects cacheByLength].
      split; [done|]. by rewrite lookup_insert_eq. }
  destruct (steps_cache _ _ Hsteps Hinv0) as [Hinv1 Hmono].
  destruct (Hinv0 _ _ Hk1) as (len1 & Ho1 & Hlen1). apply Hinj in Hlen1 as ->.
  pose proof (Hmono _ _ Hk1) as Hk1'.
  destruct (Hinv1 _ _ Hk1') as (len1' & Ho1' & _).
  destruct (cacheByLength s1 !! lengthHash length2) as [n2|] eqn:Hkey.
  - exists n1, n2. rewrite (create_hit _ _ _ Hkey). split_and!; try done.
    + intros ->. congruence.
    + intros Hne ->. destruct (Hinv1 _ _ Hkey) as (len2 & Ho2 & Hlen2).
      destruct (Hinv1 _ _ Hk1') as (len & Ho & Hlen).
      apply Hne, Hinj. congruence.
  - exists n1, (List.length (objects s1)). rewrite (create_miss _ _ Hkey).
    split_and!; try done.
    + intros ->. congruence.
    + intros _ ->. apply lookup_lt_Some in Ho1'. lia.
Qed.

End store_layer.

(** * Further properties *)

Section further_value.
Context `{LengthOps}.

Lemma intersects_mono (a a' u : SmallImmutableSet) :
  a' ⊆ a → intersects a' u = true → intersects a u = true.
Proof.
  intros Hsub (x & ? & ?)%intersects_true. apply intersects_true.
  exists x. split; [by apply Hsub|done].
Qed.

Lemma lastChildLoop_size n : size (lastChildLoop n) ≤ size n.
Proof.
  induction n as [n IH] using (induction_ltof1 _ size). unfold ltof in IH.
  destruct n as [| | | |i l h cs u]; try done.
  rewrite lastChildLoop_List. unfold tail.
  destruct (last cs) as [c|] eqn:E; [|done].
  pose proof (size_last _ _ i l h u E). specialize (IH c). lia.
Qed.

Lemma lastChildLoop_size_lt i l h c cs u :
  size (lastChildLoop (NList i l h (c :: cs) u)) < size (NList i l h (c :: cs) u).
Proof.
  rewrite lastChildLoop_List. unfold tail.
  destruct (last (c :: cs)) as [d|] eqn:E; [|by apply last_None in E].
  pose proof (size_last _ _ i l h u E). pose proof (lastChildLoop_size d). lia.
Qed.

(** X3. The reuse predicate of the leaves.  A text is reusable exactly when
    the line it ends on did not change; a bracket never is; an unexpected
    closing bracket built for [category] has the singleton of that category
    as its [unopenedBrackets] and is reusable exactly when the expected
    closing categories do not contain [category]. *)
Theorem leaf_canBeReused category len b expected endLineDidChange :
  canBeReused (NText len) expected endLineDidChange = negb endLineDidChange ∧
  canBeReused (NBracket b) expected endLineDidChange = false ∧
  unopenedBrackets (InvalidBracketAstNode_new category len) = {[ category ]} ∧
  (canBeReused (InvalidBracketAstNode_new category len) expected endLineDidChange
   = true ↔ category ∉ expected).
Proof.
  unfold InvalidBracketAstNode_new, add, getEmpty. simp canBeReused.
  split_and!; try done.
  - simpl. by rewrite (right_id_L ∅ (∪)).
  - rewrite negb_true_iff, <-not_true_iff_false, intersects_true.
    split.
    + intros Hno Hc. apply Hno. exists category. split; [done|].
      apply elem_of_union. left. by apply elem_of_singleton.
    + intros Hc (x & Hx & [Hx'|Hx']%elem_of_union).
      * apply elem_of_singleton in Hx' as ->. by apply Hc.
      * by apply elem_of_empty in Hx'.
Qed.

(** X4. Reuse is monotone in what the caller asks: a node that is reusable
    stays reusable when fewer closing categories are expected and when the
    end line is no longer reported as changed. *)
Theorem canBeReused_monotone n expected expected' e e' :
  expected' ⊆ expected → (e = false → e' = false) →
  canBeReused n expected e = true → canBeReused n expected' e' = true.
Proof.
  intros Hsub He.
  induction n as [n IH] using (induction_ltof1 _ size). unfold ltof in IH.
  destruct n as [len|b|len u|len cat ob ch [cb|] u|i len h [|c cs] u];
    simp canBeReused; try done.
  - rewrite !negb_true_iff. apply He.
  - rewrite !negb_true_iff. intros Hno.
    destruct (intersects expected' u) eqn:E; [|done].
    by rewrite (intersects_mono _ _ _ Hsub E) in Hno.
  - destruct (intersects expected u) eqn:E; [done|]. intros _.
    destruct (intersects expected' u) eqn:E'; [|done].
    by rewrite (intersects_mono _ _ _ Hsub E') in E.
  - destruct (intersects expected u) eqn:E; [done|]. intros Hr.
    destruct (intersects expected' u) eqn:E'.
    { by rewrite (intersects_mono _ _ _ Hsub E') in E. }
    apply IH; [apply lastChildLoop_size_lt|done].
Qed.

Lemma omap_lookup_seq {A} (pre cs : list A) :
  omap (λ i, (pre ++ cs) !! i) (seq (length pre) (length cs)) = cs.
Proof.
  revert pre. induction cs as [|c cs IH]; intros pre; [done|]. simpl.
  rewrite lookup_app_r, Nat.sub_diag by done. simpl. f_equal.
  specialize (IH (pre ++ [c])). rewrite length_app, <-(assoc_L (++)) in IH.
  simpl in IH. by rewrite Nat.add_1_r in IH.
Qed.

Lemma omap_pointwise {A B} (f g : A → option B) (l : list A) :
  (∀ x, f x = g x) → omap f l = omap g l.
Proof. intros Hfg. induction l as [|a l IH]; csimpl; [done|]. by rewrite Hfg, IH. Qed.

(** X6. Child access.  [children] lists, in slot order, the children that
    [getChild] returns for the indices below [childrenLength]: a Pair always
    has three slots, of which the content and the closing bracket may be
    empty, so [children] may be shorter than [childrenLength]; a List has one
    slot per child and no empty one.  Outside these indices [getChild] throws
    "Invalid child index" on a Pair and returns nothing on a List or a
    leaf. *)
Theorem getChild_children n :
  children n
  = omap (λ i, match getChild n (Z.of_nat i) with inr c => c | inl _ => None end)
      (seq 0 (Z.to_nat (childrenLength n))) ∧
  (Z.of_nat (length (children n)) ≤ childrenLength n)%Z ∧
  (kind n = KList → Z.of_nat (length (children n)) = childrenLength n) ∧
  (∀ idx, (idx < 0 ∨ childrenLength n ≤ idx)%Z →
     getChild n idx
     = match kind n with
       | KPair => inl "Invalid child index"
       | _ => inr None
       end).
Proof.
  destruct n as [len|b|len u|len cat ob ch cb u|i len h cs u]; simpl;
    split_and!; try done.
  - by destruct ch, cb.
  - destruct ch, cb; simpl; lia.
  - intros idx Hidx. repeat case_decide; try done; lia.
  - rewrite Nat2Z.id. rewrite <-(omap_lookup_seq [] cs) at 1. simpl.
    apply omap_pointwise. intros k. rewrite Nat2Z.id. case_decide; [done|lia].
  - intros idx Hidx. f_equal. case_decide; [|done].
    apply lookup_ge_None. lia.
Qed.

(** X14. A Pair made by [PairAstNode.create] obeys the aggregate law of a
    List over its present children: its length is the left-to-right sum of
    their lengths, its [unopenedBrackets] the union of their sets (that is,
    the set of its content, the brackets contributing nothing); its
    listHeight is 0; and its stored aggregates are consistent at every level
    when those of the content are. *)
Theorem PairAstNode_create_aggregates category openingBracket child closingBracket :
  let p := PairAstNode_create category openingBracket child closingBracket in
  node_length p = lengthSum (node_length <$> children p) ∧
  unopenedBrackets p = unionAll (unopenedBrackets <$> children p) ∧
  unopenedBrackets p
  = match child with Some c => unopenedBrackets c | None => ∅ end ∧
  listHeight p = 0%Z ∧
  ((∀ c, child = Some c → consistent c) → consistent p).
Proof.
  intros p. subst p. unfold PairAstNode_create, computeLength, unionAll.
  split_and!; try done.
  - by destruct child, closingBracket.
  - destruct child, closingBracket; simpl; unfold getEmpty;
      by repeat (rewrite (left_id_L ∅ (∪)) || rewrite (right_id_L ∅ (∪))).
  - intros Hc. simpl. split_and!; try done. destruct child; [by apply Hc|done].
Qed.

Lemma leaves_List i len h cs u :
  leaves (NList i len h cs u) = cs ≫= leaves.
Proof. reflexivity. Qed.

Lemma pushed_leaves m : pushed m ≫= leaves = leaves m.
Proof.
  destruct m as [| | | |i len h cs u]; simpl pushed;
    rewrite ?leaves_List; try done; simpl; by rewrite (right_id_L [] (++)).
Qed.

(** X8. [flattenLists] keeps the kind of the node and keeps its leaves: the
    same leaf nodes, in the same document order, none dropped, none
    repeated. *)
Theorem flattenLists_leaves x :
  kind (flattenLists x) = kind x ∧ leaves (flattenLists x) = leaves x.
Proof.
  split.
  { destruct x as [| | | |i len h cs u]; try done.
    by rewrite flattenLists_List, ListAstNode_create_fields. }
  induction x as [| | |len cat ob ch cb u IH|i len h cs u IH]
    using AstNode_induction; try done.
  - destruct ch as [c|]; [|done]. simpl. by rewrite (IH c eq_refl).
  - rewrite flattenLists_List, ListAstNode_create_fields, !leaves_List.
    induction IH as [|c cs Hc _ IHcs]; [done|].
    rewrite !bind_cons, bind_app, IHcs, pushed_leaves, Hc. done.
Qed.

(** A flattened tree is a fixed point, and so is each child of a flattened
    List. *)
Lemma flattenLists_fixed x :
  flattenLists (flattenLists x) = flattenLists x ∧
  Forall (λ y, flattenLists y = y) (pushed (flattenLists x)).
Proof.
  induction x as [| | |len cat ob ch cb u IH|i len h cs u IH]
    using AstNode_induction;
    try (split; [done|by apply Forall_singleton]).
  - assert (flattenLists (flattenLists (NPair len cat ob ch cb u))
            = flattenLists (NPair len cat ob ch cb u)) as Hfix.
    { destruct ch as [c|]; [|done]. simpl.
      by rewrite (proj1 (IH c eq_refl)). }
    split; [done|]. destruct ch; simpl pushed; by apply Forall_singleton.
  - assert (Forall (λ y, flattenLists y = y)
              (cs ≫= λ c, pushed (flattenLists c))) as Hitems.
    { apply Forall_bind. eapply Forall_impl; [exact IH|]. by intros c [_ ?]. }
    pose proof (flattenLists_noListInList (NList i len h cs u)) as Hflat.
    rewrite flattenLists_List, ListAstNode_create_fields in Hflat |- *.
    rewrite noListInList_List in Hflat.
    apply Is_true_true, forallb_True in Hflat.
    split; [|done].
    rewrite flattenLists_List, ListAstNode_create_fields.
    assert ((cs ≫= λ c, pushed (flattenLists c))
              ≫= (λ c, pushed (flattenLists c))
            = cs ≫= λ c, pushed (flattenLists c)) as ->; [|done].
    induction Hitems as [|y ys Hy _ IHys]; [done|].
    apply Forall_cons in Hflat as [Hy' Hflat].
    rewrite bind_cons, Hy, (IHys Hflat). by destruct y.
Qed.

(** X7. One pass of [flattenLists] reaches a normal form: flattening again
    changes nothing; the stored aggregates of the result are consistent at
    every level, whatever those of the input were; and its listHeight is 0
    or 1. *)
Theorem flattenLists_normal_form x :
  flattenLists (flattenLists x) = flattenLists x ∧
  consistent (flattenLists x) ∧
  (0 ≤ listHeight (flattenLists x) ≤ 1)%Z.
Proof.
  split; [apply flattenLists_fixed|]. split; [apply flattenLists_consistent|].
  destruct x as [| | |len cat ob ch cb u|i len h cs u];
    try (simpl; lia).
  pose proof (flattenLists_noListInList (NList i len h cs u)) as Hflat.
  rewrite flattenLists_List, ListAstNode_create_fields in Hflat |- *.
  rewrite noListInList_List in Hflat. simpl.
  destruct (cs ≫= _) as [|y ys]; [lia|].
  simpl in Hflat. apply andb_true_iff in Hflat as [Hy _].
  destruct y; simpl in *; done || lia.
Qed.

(** *** Reading a deep clone *)

Lemma thaw_List i l h cs u :
  thaw (NList i l h cs u) = NList false l h (thaw <$> cs) u.
Proof. reflexivity. Qed.

Lemma lastChildLoop_thaw n : lastChildLoop (thaw n) = thaw (lastChildLoop n).
Proof.
  induction n as [n IH] using (induction_ltof1 _ size). unfold ltof in IH.
  destruct n as [| | |len cat ob [c|] cb u|i l h cs u]; try done.
  rewrite thaw_List, !lastChildLoop_List. unfold tail. rewrite fmap_last.
  destruct (last cs) as [c|] eqn:E; simpl; [|done].
  apply IH. by eapply size_last.
Qed.

Lemma canBeReused_thaw n expected e :
  canBeReused (thaw n) expected e = canBeReused n expected e.
Proof.
  induction n as [n IH] using (induction_ltof1 _ size). unfold ltof in IH.
  destruct n as [| | |len cat ob ch [cb|] u|i l h [|c cs] u]; try done.
  pose proof (lastChildLoop_thaw (NList i l h (c :: cs) u)) as Hloop.
  rewrite thaw_List, fmap_cons in Hloop |- *. simp canBeReused.
  rewrite Hloop. destruct (intersects expected u); [done|].
  apply IH, lastChildLoop_size_lt.
Qed.

Lemma flattenLists_thaw n : flattenLists (thaw n) = flattenLists n.
Proof.
  induction n as [| | |len cat ob ch cb u IH|i len h cs u IH]
    using AstNode_induction; try done.
  - destruct ch as [c|]; [|done]. simpl. by rewrite (IH c eq_refl).
  - rewrite thaw_List, !flattenLists_List. f_equal.
    induction IH as [|c cs Hc _ IHcs]; [done|].
    by rewrite fmap_cons, !bind_cons, Hc, IHcs.
Qed.

Lemma leaves_thaw n : leaves (thaw n) = leaves n.
Proof.
  induction n as [| | |len cat ob ch cb u IH|i len h cs u IH]
    using AstNode_induction; try done.
  - destruct ch as [c|]; [|done]. simpl. by rewrite (IH c eq_refl).
  - rewrite thaw_List, !leaves_List.
    induction IH as [|c cs Hc _ IHcs]; [done|].
    by rewrite fmap_cons, !bind_cons, Hc, IHcs.
Qed.

Lemma noImmutableList_List i len h cs u :
  noImmutableList (NList i len h cs u) = negb i && forallb noImmutableList cs.
Proof. reflexivity. Qed.

Lemma noImmutableList_thaw n : noImmutableList (thaw n) = true.
Proof.
  induction n as [| | |len cat ob ch cb u IH|i len h cs u IH]
    using AstNode_induction; try done.
  - destruct ch as [c|]; [|done]. simpl. by apply IH.
  - rewrite thaw_List, noImmutableList_List. simpl.
    apply Is_true_true, forallb_True, Forall_fmap.
    eapply Forall_impl; [exact IH|]. intros c Hc. by apply Is_true_true.
Qed.

End further_value.

Section further_store.
Context `{LengthOps}.

Implicit Types (s : store) (l this node : loc) (o : obj).

(** *** [toMutable] and the copy-on-write of an end of a List *)

Lemma toMutable_frozen s this len h cs u :
  objects s !! this = Some (OList true len h cs u) →
  toMutable this s
  = (Ok (length (objects s)),
     mkStore (objects s ++ [OList false len h cs u]) (cacheByLength s)).
Proof.
  intros Ho. unfold toMutable. by rewrite (bind_Ok _ _ _ _ _ (load_Some _ _ _ Ho)).
Qed.

Lemma toMutable_other s this o :
  objects s !! this = Some o →
  (∀ len h cs u, o ≠ OList true len h cs u) →
  toMutable this s = (Ok this, s).
Proof.
  intros Ho Hne. unfold toMutable. rewrite (bind_Ok _ _ _ _ _ (load_Some _ _ _ Ho)).
  destruct o as [| | | |[] len h cs u]; try done. by destruct (Hne len h cs u).
Qed.

(** X12. [toMutable] is idempotent: what a successful call returns is
    never an immutable List, and calling [toMutable] on it returns it again
    and changes nothing. *)
Theorem toMutable_idempotent s this m s1 :
  toMutable this s = (Ok m, s1) →
  toMutable m s1 = (Ok m, s1) ∧
  (∃ o, objects s1 !! m = Some o ∧ ∀ len h cs u, o ≠ OList true len h cs u).
Proof.
  intros Hrun. destruct (objects s !! this) as [o|] eqn:Ho.
  - assert ((∃ len h cs u, o = OList true len h cs u) ∨
            (∀ len h cs u, o ≠ OList true len h cs u)) as [(len & h & cs & u & ->)|Hne].
    { destruct o as [| | | |[] len h cs u]; (by right) || (left; eauto). }
    + rewrite (toMutable_frozen _ _ _ _ _ _ Ho) in Hrun. simplify_eq.
      assert (objects
                (mkStore (objects s ++ [OList false len h cs u]) (cacheByLength s))
                !! length (objects s) = Some (OList false len h cs u)) as Hm.
      { simpl. by rewrite lookup_app_r, Nat.sub_diag. }
      split; [|by eexists].
      by apply (toMutable_other _ _ _ Hm).
    + rewrite (toMutable_other _ _ _ Ho Hne) in Hrun. simplify_eq.
      split; [by apply (toMutable_other _ _ _ Ho)|by eexists].
  - unfold toMutable, mbind, M_bind, load in Hrun. by rewrite Ho in Hrun.
Qed.

Lemma makeElementMutable_run s this len h cs u idx c oc :
  objects s !! this = Some (OList false len h cs u) →
  cs !! idx = Some c → objects s !! c = Some oc →
  ∃ m s' cs',
    makeElementMutable this cs idx s = (Ok (Some m), s') ∧
    slot_made_mutable s this idx m s' ∧
    objects s' !! this = Some (OList false len h cs' u) ∧
    length cs' = length cs ∧
    makeElementMutable this cs' idx s' = (Ok (Some m), s').
Proof.
  intros Ho Hidx Hc. unfold makeElementMutable. rewrite Hidx.
  assert ((∃ lc hc csc uc, oc = OList true lc hc csc uc) ∨
          (∀ lc hc csc uc, oc ≠ OList true lc hc csc uc))
    as [(lc & hc & csc & uc & ->)|Hne].
  { destruct oc as [| | | |[] lc hc csc uc]; (by right) || (left; eauto). }
  - rewrite (bind_Ok _ _ _ _ _ (toMutable_frozen _ _ _ _ _ _ Hc)).
    pose proof (lookup_lt_Some _ _ _ Hc) as Hlt.
    pose proof (lookup_lt_Some _ _ _ Ho) as Hlt'.
    rewrite decide_True by lia.
    set (m := length (objects s)).
    set (s1 := mkStore (objects s ++ [OList false lc hc csc uc]) (cacheByLength s)).
    assert (objects s1 !! this = Some (OList false len h cs u)) as Ho1
      by by apply lookup_app_l_Some.
    rewrite (bind_Ok _ _ _ _ _ (set_children_run _ _ _ _ _ _ _ (<[idx := m]> cs) Ho1)).
    set (s' := assign s1 this (OList false len h (<[idx := m]> cs) u)).
    assert (objects s' !! m = Some (OList false lc hc csc uc)) as Hm.
    { unfold s'. rewrite assign_lookup_ne by (unfold m; lia).
      simpl. by rewrite lookup_app_r, Nat.sub_diag. }
    assert (objects s' !! this = Some (OList false len h (<[idx := m]> cs) u))
      as Ho' by by eapply assign_lookup_eq.
    exists m, s', (<[idx := m]> cs). split_and!.
    + done.
    + exists len, h, cs, u, c, (OList true lc hc csc uc). split_and!; try done.
      intros x o Hx Hxo. unfold s'. rewrite assign_lookup_ne by done.
      by apply lookup_app_l_Some.
    + done.
    + by rewrite length_insert.
    + rewrite list_lookup_insert_eq by by eapply lookup_lt_Some.
      rewrite (bind_Ok _ _ _ _ _ (toMutable_other _ _ _ Hm ltac:(done))).
      by rewrite decide_False by (intros Hmm; by apply Hmm).
  - rewrite (bind_Ok _ _ _ _ _ (toMutable_other _ _ _ Hc Hne)).
    rewrite decide_False by (intros Hmm; by apply Hmm).
    exists c, s, cs. split_and!; try done.
    + exists len, h, cs, u, c, oc. split_and!; try done.
      destruct oc as [| | | |[] lc hc csc uc]; try done.
      by destruct (Hne lc hc csc uc).
    + rewrite Hidx. rewrite (bind_Ok _ _ _ _ _ (toMutable_other _ _ _ Hc Hne)).
      by rewrite decide_False by (intros Hmm; by apply Hmm).
Qed.

Lemma makeElementMutable_twice (f : loc → M (option loc)) (pick : list loc → nat)
    s this i len h cs u :
  (∀ this', f this' = (throwIfImmutable this';;
                       cs ← get_children this';
                       if decide (length cs = 0) then mret None
                       else makeElementMutable this' cs (pick cs))) →
  (∀ cs cs' : list loc, length cs = length cs' → pick cs = pick cs') →
  (∀ cs : list loc, cs ≠ [] → pick cs < length cs) →
  objects s !! this = Some (OList i len h cs u) →
  Forall (λ c, is_Some (objects s !! c)) cs →
  if i then f this s = (Throw "this instance is immutable", s)
  else match cs with
       | [] => f this s = (Ok None, s)
       | _ :: _ =>
           ∃ m s', f this s = (Ok (Some m), s') ∧
                   slot_made_mutable s this (pick cs) m s' ∧
                   f this s' = (Ok (Some m), s')
       end.
Proof.
  intros Hf Hpick Hlt Ho Hcs. rewrite !Hf.
  pose proof (throwIfImmutable_run _ _ _ _ _ _ _ Ho) as Ht.
  destruct i.
  { unfold mbind, M_bind. by rewrite Ht. }
  rewrite (bind_Ok _ _ _ _ _ Ht).
  rewrite (bind_Ok _ _ _ _ _ (get_children_run _ _ _ _ _ _ _ Ho)).
  destruct cs as [|c0 cs0]; [done|].
  set (cs := c0 :: cs0) in *.
  rewrite decide_False by done.
  destruct (lookup_lt_is_Some_2 cs (pick cs)) as [c Hc]; [by apply Hlt|].
  destruct (proj1 (Forall_forall _ _) Hcs c) as [oc Hoc];
    [by eapply list_elem_of_lookup_2|].
  destruct (makeElementMutable_run _ _ _ _ _ _ _ _ _ Ho Hc Hoc)
    as (m & s' & cs' & Hrun & Hslot & Ho' & Hlen & Hrun').
  exists m, s'. split_and!; [done|done|].
  assert (throwIfImmutable this s' = (Ok (), s')) as Ht'
    by apply (throwIfImmutable_run _ _ _ _ _ _ _ Ho').
  rewrite (bind_Ok _ _ _ _ _ Ht').
  rewrite (bind_Ok _ _ _ _ _ (get_children_run _ _ _ _ _ _ _ Ho')).
  rewrite decide_False by (rewrite Hlen; done).
  by rewrite (Hpick cs' cs Hlen).
Qed.

(** X9. [makeLastElementMutable] and [makeFirstElementMutable], on a List
    whose children exist.  On an immutable List both throw and change
    nothing; on a mutable List without children both return [undefined] and
    change nothing.  Otherwise each returns a node [m] for its slot (the last,
    resp. the first): if the child in the slot was an immutable List, [m] is a
    fresh mutable List with the same fields and children, now stored in the
    slot; if not, [m] is that child and the store is unchanged.  No other
    object, no aggregate of the List and no cache entry changes, and a
    second call returns the same [m] without changing anything. *)
Theorem makeElementMutable_spec s this i len h cs u :
  objects s !! this = Some (OList i len h cs u) →
  Forall (λ c, is_Some (objects s !! c)) cs →
  if i then
    makeLastElementMutable this s = (Throw "this instance is immutable", s) ∧
    makeFirstElementMutable this s = (Throw "this instance is immutable", s)
  else match cs with
       | [] =>
           makeLastElementMutable this s = (Ok None, s) ∧
           makeFirstElementMutable this s = (Ok None, s)
       | _ :: _ =>
           (∃ m s', makeLastElementMutable this s = (Ok (Some m), s') ∧
                    slot_made_mutable s this (length cs - 1) m s' ∧
                    makeLastElementMutable this s' = (Ok (Some m), s')) ∧
           (∃ m s', makeFirstElementMutable this s = (Ok (Some m), s') ∧
                    slot_made_mutable s this 0 m s' ∧
                    makeFirstElementMutable this s' = (Ok (Some m), s'))
       end.
Proof.
  intros Ho Hcs.
  pose proof (makeElementMutable_twice makeLastElementMutable
                (λ cs, length cs - 1) s this i len h cs u) as Hlast.
  pose proof (makeElementMutable_twice makeFirstElementMutable
                (λ _, 0) s this i len h cs u) as Hfirst.
  simpl in Hlast, Hfirst.
  assert (∀ cs0 : list loc, cs0 ≠ [] → 0 < length cs0) as Hpos.
  { intros [|? ?] ?; [done|simpl; lia]. }
  specialize (Hlast ltac:(done) ltac:(by intros ?? ->)
                ltac:(intros cs0 ?%Hpos; lia) Ho Hcs).
  specialize (Hfirst ltac:(done) ltac:(done) Hpos Ho Hcs).
  destruct i; [done|]. by destruct cs.
Qed.

(** *** Adding a child and taking it off again *)

Lemma children_at_agree s s' cs nodes nodes' :
  (∀ c, c ∈ cs → objects s' !! c = objects s !! c) →
  children_at s cs nodes → children_at s' cs nodes' → nodes' = nodes.
Proof.
  intros Hagree Hcs. revert nodes'.
  induction Hcs as [|c o cs nodes Hc _ IH]; intros nodes'.
  - by intros ->%Forall2_nil_inv_l.
  - intros (o' & nodes0 & Hc' & Hcs' & ->)%Forall2_cons_inv_l.
    rewrite Hagree, Hc in Hc' by left. simplify_eq. f_equal.
    apply IH; [|done]. intros x Hx. apply Hagree. by right.
Qed.

Lemma restructured_valid s this h cs1 s' l :
  restructured s this h cs1 s' →
  is_Some (objects s !! l) → is_Some (objects s' !! l).
Proof.
  intros (len' & u' & Ho & _ & Hoth & _) Hl.
  destruct (decide (l = this)) as [->|Hne]; [by eexists|].
  by rewrite Hoth.
Qed.

Lemma restructured_back s this len h cs u cs1 s1 s2 :
  objects s !! this = Some (OList false len h cs u) →
  aggregates_consistent s this →
  this ∉ cs → cs ≠ [] →
  restructured s this h cs1 s1 → restructured s1 this h cs s2 → s2 = s.
Proof.
  intros Ho (i0 & len0 & h0 & cs0 & u0 & nodes & Ho0 & Hnodes & Hl & Hu)
    Hthis Hne (len1 & u1 & Ho1 & _ & Hoth1 & Hcache1)
    (len2 & u2 & Ho2 & Hagg & Hoth2 & Hcache2).
  rewrite Ho in Ho0. simplify_eq.
  destruct (Hagg Hthis Hne)
    as (i3 & len3 & h3 & cs3 & u3 & nodes' & Ho3 & Hnodes' & Hl' & Hu').
  rewrite Ho2 in Ho3. simplify_eq.
  assert (nodes' = nodes) as ->.
  { eapply children_at_agree; [|exact Hnodes|exact Hnodes'].
    intros c Hc. assert (c ≠ this) by (by intros ->).
    by rewrite Hoth2, Hoth1. }
  assert (objects s2 = objects s) as Hobj.
  { apply list_eq. intros l. destruct (decide (l = this)) as [->|Hl].
    - by rewrite Ho2, Ho.
    - by rewrite Hoth2, Hoth1. }
  destruct s, s2. simpl in *. congruence.
Qed.

(** X10. Adding a child to a List and taking it off again is a round
    trip.  On a mutable List with at least one child, whose children exist,
    which is not its own child and whose length and [unopenedBrackets] agree
    with its children: [appendChildOfSameHeight node] followed by
    [unappendChild], and [prependChildOfSameHeight node] followed by
    [unprependChild], return [node] and leave every object and the cache
    exactly as they were before. *)
Theorem add_then_remove_child s this node len h cs u :
  objects s !! this = Some (OList false len h cs u) →
  Forall (λ c, is_Some (objects s !! c)) cs →
  is_Some (objects s !! node) →
  cs ≠ [] → this ∉ cs →
  aggregates_consistent s this →
  (∃ s1, appendChildOfSameHeight this node s = (Ok (), s1) ∧
         unappendChild this s1 = (Ok (Some node), s)) ∧
  (∃ s1, prependChildOfSameHeight this node s = (Ok (), s1) ∧
         unprependChild this s1 = (Ok (Some node), s)).
Proof.
  intros Ho Hcs Hnode Hne Hthis Hagg. split.
  - destruct (appendChildOfSameHeight_run _ _ _ _ _ _ Ho Hcs node Hnode)
      as (s1 & Hrun & Hs1).
    exists s1. split; [done|].
    pose proof Hs1 as (len1 & u1 & Ho1 & _).
    destruct (unappendChild_run s1 this len1 h (cs ++ [node]) u1 Ho1)
      as (s2 & Hrun2 & Hs2).
    { apply Forall_app. split; [|apply Forall_singleton; by eapply restructured_valid].
      eapply Forall_impl; [exact Hcs|]. intros c. by eapply restructured_valid. }
    rewrite last_snoc, removelast_last in *.
    by rewrite Hrun2, (restructured_back _ _ _ _ _ _ _ _ _ Ho Hagg Hthis Hne Hs1 Hs2).
  - destruct (prependChildOfSameHeight_run _ _ _ _ _ _ Ho Hcs node Hnode)
      as (s1 & Hrun & Hs1).
    exists s1. split; [done|].
    pose proof Hs1 as (len1 & u1 & Ho1 & _).
    destruct (unprependChild_run s1 this len1 h (node :: cs) u1 Ho1)
      as (s2 & Hrun2 & Hs2).
    { constructor; [by eapply restructured_valid|].
      eapply Forall_impl; [exact Hcs|]. intros c. by eapply restructured_valid. }
    simpl in Hrun2, Hs2. rewrite drop_0 in Hs2.
    by rewrite Hrun2, (restructured_back _ _ _ _ _ _ _ _ _ Ho Hagg Hthis Hne Hs1 Hs2).
Qed.

(** *** Recomputing the aggregates *)

(** X15. [handleChildrenChanged] is idempotent, and a no-op on a List
    whose aggregates are right.  On a mutable List whose children exist and
    which is not its own child the call succeeds; a second call changes
    nothing more; and if the length and [unopenedBrackets] of the List agreed
    with its children beforehand, the first call changes nothing either. *)
Theorem handleChildrenChanged_idempotent s this len h cs u :
  objects s !! this = Some (OList false len h cs u) →
  Forall (λ c, is_Some (objects s !! c)) cs →
  this ∉ cs →
  ∃ s', handleChildrenChanged this s = (Ok (), s') ∧
        handleChildrenChanged this s' = (Ok (), s') ∧
        (aggregates_consistent s this → s' = s).
Proof.
  intros Ho Hcs Hthis.
  destruct (children_at_exists _ _ Hcs) as [nodes Hnodes].
  rewrite (handleChildrenChanged_run _ _ _ _ _ _ _ Ho Hnodes).
  eexists. split; [done|].
  destruct cs as [|c0 cs0].
  { split; [|done]. by rewrite (handleChildrenChanged_run _ _ _ _ _ _ _ Ho Hnodes). }
  set (cs := c0 :: cs0) in *.
  set (o' := OList false (lengthSum (obj_length <$> nodes)) h cs
               (unionAll (obj_unopenedBrackets <$> nodes))).
  split.
  - erewrite (handleChildrenChanged_run (assign s this o'));
      [|by eapply assign_lookup_eq|by apply children_at_assign].
    by rewrite assign_assign.
  - intros (i0 & len0 & h0 & cs1 & u0 & nodes' & Ho0 & Hnodes' & -> & ->).
    rewrite Ho in Ho0. simplify_eq.
    assert (nodes' = nodes) as ->
      by (eapply children_at_agree; [|exact Hnodes|exact Hnodes']; done).
    unfold assign. rewrite list_insert_id by done. by destruct s.
Qed.

(** *** Interning twice *)

(** X11. [BracketAstNode.create] in any store at all, reachable or not:
    it returns; a second call with the same length returns the same node and
    changes nothing; the first call either changes nothing or appends one
    bracket of that length, which is the node returned; it removes and
    redirects no cache entry, and afterwards the cache maps the hash of the
    length to the node returned. *)
Theorem BracketAstNode_create_twice s length :
  ∃ n s1,
    BracketAstNode_create length s = (Ok n, s1) ∧
    BracketAstNode_create length s1 = (Ok n, s1) ∧
    (s1 = s ∨
     objects s1 = objects s ++ [OBracket length] ∧ n = List.length (objects s)) ∧
    cacheByLength s ⊆ cacheByLength s1 ∧
    cacheByLength s1 !! lengthHash length = Some n.
Proof.
  destruct (cacheByLength s !! lengthHash length) as [n|] eqn:Hkey.
  - exists n, s. rewrite (create_hit _ _ _ Hkey). split_and!; auto.
  - eexists _, _. rewrite (create_miss _ _ Hkey). split; [done|].
    cbn [objects cacheByLength]. split_and!.
    + apply create_hit. cbn [cacheByLength]. by rewrite lookup_insert_eq.
    + by right.
    + by apply insert_subseteq.
    + by rewrite lookup_insert_eq.
Qed.

(** *** Reading a deep clone *)

(** X5. A deep clone reads like its original.  On a node whose graph
    unfolds to the tree [t], [deepClone] returns a node that unfolds to a
    tree [t'] on which [canBeReused] answers as on [t] for every argument,
    whose [flattenLists] is that of [t], which has the leaves of [t] in the
    same order, and in which no List at any depth is immutable. *)
Theorem deepClone_reads_alike s l t fuel :
  repr 0 s l t → size t < fuel →
  ∃ l' s' t',
    deepClone fuel l s = (Ok l', s') ∧
    repr 0 s' l' t' ∧
    (∀ expected endLineDidChange,
       canBeReused t' expected endLineDidChange
       = canBeReused t expected endLineDidChange) ∧
    flattenLists t' = flattenLists t ∧
    leaves t' = leaves t ∧
    noImmutableList t' = true.
Proof.
  intros Hr Hfuel.
  destruct (deepClone_correct t fuel s l Hr Hfuel) as (l' & s' & Hrun & _ & _ & Hr').
  exists l', s', (thaw t). split_and!.
  - done.
  - eapply repr_mono; [|done|exact Hr']. lia.
  - intros. apply canBeReused_thaw.
  - apply flattenLists_thaw.
  - apply leaves_thaw.
  - apply noImmutableList_thaw.
Qed.

(** *** [flattenLists] on the store *)

Lemma repr_obj_listHeight lo s l t o :
  repr lo s l t → objects s !! l = Some o → obj_listHeight o = listHeight t.
Proof. inversion 1; intros; by simplify_eq. Qed.

Lemma flattenLists_store_S fuel this :
  flattenLists_store (S fuel) this
  = (o ← load this;
     match o with
     | OText _ | OBracket _ | OInvalidBracket _ _ => mret this
     | OPair _ category openingBracket child closingBracket _ =>
         openingBracket' ← flattenLists_store fuel openingBracket;
         child' ← and_then (flattenLists_store fuel) child;
         closingBracket' ← and_then (flattenLists_store fuel) closingBracket;
         PairAstNode_create_store category openingBracket' child' closingBracket'
     | OList _ _ _ childrenFast _ =>
         pieces ← for_each (pushed_store (flattenLists_store fuel)) childrenFast;
         ListAstNode_create_store (concat pieces) false
     end).
Proof. done. Qed.

Lemma flattenLists_store_leaf fuel s l o :
  objects s !! l = Some o → obj_is_leaf o = true →
  flattenLists_store (S fuel) l s = (Ok l, s).
Proof.
  intros Ho Hleaf. simpl. rewrite (bind_Ok _ _ _ _ _ (load_Some _ _ _ Ho)).
  by destruct o.
Qed.

Lemma ListAstNode_create_store_run s items ts immutable :
  Forall2 (repr 0 s) items ts →
  ∃ l' s', ListAstNode_create_store items immutable s = (Ok l', s') ∧
    objects s `prefix_of` objects s' ∧
    cacheByLength s' = cacheByLength s ∧
    repr 0 s' l' (ListAstNode_create ts immutable).
Proof.
  intros Hitems.
  assert (∀ o, Forall2 (repr 0 (mkStore (objects s ++ [o]) (cacheByLength s)))
                 items ts) as Hitems'.
  { intros o. eapply Forall2_impl; [exact Hitems|]. intros x y.
    apply repr_mono; [done|]. by apply prefix_app_r. }
  destruct Hitems as [|item0 t0 items ts Hitem0 Hitems].
  - eexists _, _. split; [apply new_run|]. simpl.
    split_and!; [by apply prefix_app_r|done|].
    eapply repr_list; simpl; [lia|by rewrite lookup_app_r, Nat.sub_diag|].
    constructor.
  - assert (Forall2 (repr 0 s) (item0 :: items) (t0 :: ts)) as Hall
      by by constructor.
    destruct (repr_children_at _ _ _ _ Hall) as (nodes & Hnodes & Hl & Hu).
    unfold ListAstNode_create_store.
    rewrite (bind_Ok _ _ _ _ _ (for_each_load _ _ _ Hnodes)).
    apply Forall2_cons_inv_l in Hnodes as (node0 & nodes' & Hnode0 & _ & ->).
    pose proof (aggregate_fst obj_length obj_unopenedBrackets node0 nodes') as Hl'.
    pose proof (aggregate_snd obj_length obj_unopenedBrackets node0 nodes') as Hu'.
    destruct (aggregate obj_length obj_unopenedBrackets node0 (node0 :: nodes'))
      as [length u]. cbn [fst snd] in Hl', Hu'. rewrite Hl in Hl'.
    rewrite Hu in Hu'. subst length u.
    eexists _, _. split; [apply new_run|]. cbn [objects cacheByLength].
    split_and!; [by apply prefix_app_r|done|].
    rewrite ListAstNode_create_fields.
    rewrite (repr_obj_listHeight _ _ _ _ _ Hitem0 Hnode0).
    eapply repr_list; [lia| |apply Hitems'].
    cbn [objects]. by rewrite lookup_app_r, Nat.sub_diag.
Qed.

Lemma PairAstNode_create_store_run s category ob b ch cht cb cbt :
  objects s !! ob = Some (OBracket (bracket_length b)) →
  option_Forall2 (repr 0 s) ch cht →
  option_Forall2
    (λ c b', objects s !! c = Some (OBracket (bracket_length b'))) cb cbt →
  ∃ l' s', PairAstNode_create_store category ob ch cb s = (Ok l', s') ∧
    objects s `prefix_of` objects s' ∧
    cacheByLength s' = cacheByLength s ∧
    repr 0 s' l' (PairAstNode_create category b cht cbt).
Proof.
  intros Hob Hch Hcb. unfold PairAstNode_create_store.
  rewrite (bind_Ok _ _ _ _ _ (load_Some _ _ _ Hob)).
  assert (∃ och,
    (match ch with
     | Some c => o ← load c; mret (Some o)
     | None => mret None
     end) s = (Ok och, s) ∧
    match och with
    | Some o => lengthAdd (bracket_length b) (obj_length o)
    | None => bracket_length b
    end = match cht with
          | Some c => lengthAdd (bracket_length b) (node_length c)
          | None => bracket_length b
          end ∧
    match och with Some o => obj_unopenedBrackets o | None => getEmpty end
    = match cht with Some c => unopenedBrackets c | None => getEmpty end)
    as (och & Hrun & Hlen & Hu).
  { destruct Hch as [c tc Hc|]; [|by exists None].
    destruct (repr_is_Some _ _ _ _ Hc) as [o Ho].
    destruct (repr_fields _ _ _ _ _ Hc Ho) as (_ & Hl & Hu).
    exists (Some o). rewrite (bind_Ok _ _ _ _ _ (load_Some _ _ _ Ho)).
    by rewrite Hl, Hu. }
  rewrite (bind_Ok _ _ _ _ _ Hrun).
  assert (∃ ocb,
    (match cb with
     | Some c => o ← load c; mret (Some o)
     | None => mret None
     end) s = (Ok ocb, s) ∧
    ∀ len, match ocb with
           | Some o => lengthAdd len (obj_length o)
           | None => len
           end = match cbt with
                 | Some b' => lengthAdd len (bracket_length b')
                 | None => len
                 end) as (ocb & Hrun' & Hlen').
  { destruct Hcb as [c b' Hc|]; [|by exists None].
    exists (Some (OBracket (bracket_length b'))).
    by rewrite (bind_Ok _ _ _ _ _ (load_Some _ _ _ Hc)). }
  rewrite (bind_Ok _ _ _ _ _ Hrun').
  eexists _, _. split; [apply new_run|]. simpl.
  split_and!; [by apply prefix_app_r|done|].
  rewrite Hlen', Hlen, Hu. unfold PairAstNode_create, computeLength.
  eapply repr_pair; simpl.
  - lia.
  - by rewrite lookup_app_r, Nat.sub_diag.
  - by apply lookup_app_l_Some.
  - destruct Hch; constructor.
    eapply repr_mono; [done| |eassumption]. by apply prefix_app_r.
  - destruct Hcb; constructor. by apply lookup_app_l_Some.
Qed.

Lemma pushed_repr s l t :
  repr 0 s l t →
  ∃ o, objects s !! l = Some o ∧
    Forall2 (repr 0 s)
      (match o with OList _ _ _ _children _ => _children | _ => [l] end)
      (pushed t).
Proof.
  intros Hr. pose proof Hr as Hr'.
  inversion Hr; subst; eexists; (split; [eassumption|]); simpl;
    by repeat constructor.
Qed.

Lemma pushed_store_run (f : loc → M loc) c s c' s1 o :
  f c s = (Ok c', s1) → objects s1 !! c' = Some o →
  pushed_store f c s
  = (Ok (match o with OList _ _ _ _children _ => _children | _ => [c'] end), s1).
Proof.
  intros Hrun Ho. unfold pushed_store.
  rewrite (bind_Ok _ _ _ _ _ Hrun), (bind_Ok _ _ _ _ _ (load_Some _ _ _ Ho)).
  by destruct o.
Qed.

Lemma pieces_ok fuel ts :
  Forall (λ t, size t < fuel ∧ flattenLists_ok t) ts →
  ∀ cs s,
    Forall2 (repr 0 s) cs ts →
    ∃ pieces s',
      for_each (pushed_store (flattenLists_store fuel)) cs s = (Ok pieces, s') ∧
      objects s `prefix_of` objects s' ∧
      cacheByLength s' = cacheByLength s ∧
      Forall2 (repr 0 s') (concat pieces)
        (ts ≫= λ c, pushed (flattenLists c)).
Proof.
  induction 1 as [|t ts [Hsize Ht] _ IH]; intros cs s Hcs.
  - apply Forall2_nil_inv_r in Hcs as ->. exists [], s.
    split_and!; done || constructor.
  - apply Forall2_cons_inv_r in Hcs as (c & cs0 & Hc & Hcs & ->).
    destruct (Ht fuel s c Hc Hsize) as (c' & s1 & Hrun & Hpre & Hcache & Hc').
    destruct (pushed_repr _ _ _ Hc') as (o & Ho & Hpiece).
    destruct (IH cs0 s1) as (pieces & s2 & Hrun' & Hpre' & Hcache' & Hpieces).
    { eapply Forall2_impl; [exact Hcs|]. intros x y. by apply repr_mono. }
    exists ((match o with OList _ _ _ _children _ => _children | _ => [c'] end)
            :: pieces), s2.
    split_and!; [|by etrans|congruence|].
    + cbn [for_each].
      rewrite (bind_Ok _ _ _ _ _ (pushed_store_run _ _ _ _ _ _ Hrun Ho)).
      by rewrite (bind_Ok _ _ _ _ _ Hrun').
    + rewrite bind_cons. simpl concat. apply Forall2_app; [|done].
      eapply Forall2_impl; [exact Hpiece|]. intros x y. by apply repr_mono.
Qed.

Lemma flattenLists_store_correct t : flattenLists_ok t.
Proof.
  induction t as [len|b|len u|len cat b cht cbt u IH|i len h ts u IH]
    using AstNode_induction; intros fuel s l Hr Hfuel;
    destruct fuel as [|fuel]; try (simpl in Hfuel; lia); inversion Hr; subst.
  - exists l, s. split_and!; [by eapply flattenLists_store_leaf|done|done|done].
  - exists l, s. split_and!; [by eapply flattenLists_store_leaf|done|done|done].
  - exists l, s. split_and!; [by eapply flattenLists_store_leaf|done|done|done].
  - destruct fuel as [|fuel]; [destruct cht; simpl in Hfuel; lia|].
    assert (∃ ch' s1,
              and_then (flattenLists_store (S fuel)) ch s = (Ok ch', s1) ∧
              objects s `prefix_of` objects s1 ∧
              cacheByLength s1 = cacheByLength s ∧
              option_Forall2 (repr 0 s1) ch'
                (match cht with
                 | Some c => Some (flattenLists c)
                 | None => None
                 end))
      as (ch' & s1 & Hrun & Hpre & Hcache & Hch').
    { match goal with Hopt : option_Forall2 (repr _ _) _ _ |- _ =>
        destruct Hopt as [c tc Hc|] end.
      - destruct (IH tc eq_refl (S fuel) s c Hc) as (c' & s1 & Hrun & ? & ? & ?);
          [simpl in Hfuel; lia|].
        exists (Some c'), s1. simpl. rewrite (bind_Ok _ _ _ _ _ Hrun).
        split_and!; try done. by constructor.
      - exists None, s. split_and!; try done. constructor. }
    assert (and_then (flattenLists_store (S fuel)) cb s1 = (Ok cb, s1)
            ∧ option_Forall2
                (λ c b', objects s1 !! c = Some (OBracket (bracket_length b')))
                cb cbt) as [Hrun' Hcb'].
    { match goal with Hopt : option_Forall2 _ cb _ |- _ =>
        destruct Hopt as [c b' Hc|] end; [|split; [done|constructor]].
      eapply prefix_lookup_Some in Hc; [|exact Hpre]. simpl.
      erewrite bind_Ok; [|by eapply flattenLists_store_leaf].
      split; [done|by constructor]. }
    match goal with Hb : objects s !! ob = Some _ |- _ =>
      pose proof (prefix_lookup_Some _ _ _ _ Hb Hpre) as Hob1 end.
    destruct (PairAstNode_create_store_run s1 cat ob b ch' _ cb cbt Hob1 Hch' Hcb')
      as (l' & s2 & Hrun2 & Hpre2 & Hcache2 & Hr2).
    exists l', s2. split_and!; [|by etrans|congruence|exact Hr2].
    rewrite (flattenLists_store_S (S fuel)).
    match goal with Hl : objects s !! l = Some _ |- _ =>
      rewrite (bind_Ok _ _ _ _ _ (load_Some _ _ _ Hl)) end.
    erewrite bind_Ok; [|by eapply flattenLists_store_leaf].
    by rewrite (bind_Ok _ _ _ _ _ Hrun), (bind_Ok _ _ _ _ _ Hrun').
  - destruct (pieces_ok fuel ts) with (cs := cs) (s := s)
      as (pieces & s1 & Hrun & Hpre & Hcache & Hpieces); [|done|].
    { apply Forall_forall. intros t Ht. split.
      - pose proof (size_elem t ts i len h u Ht). lia.
      - by eapply Forall_forall in IH. }
    destruct (ListAstNode_create_store_run s1 _ _ false Hpieces)
      as (l' & s2 & Hrun2 & Hpre2 & Hcache2 & Hr2).
    exists l', s2. split_and!; [|by etrans|congruence|by rewrite flattenLists_List].
    rewrite flattenLists_store_S.
    match goal with Hl : objects s !! l = Some _ |- _ =>
      rewrite (bind_Ok _ _ _ _ _ (load_Some _ _ _ Hl)) end.
    by rewrite (bind_Ok _ _ _ _ _ Hrun).
Qed.

(** X13. [flattenLists] on the object graph computes the flattened tree
    and destroys nothing.  On a node whose graph unfolds to a tree [t], with
    a recursion budget above the size of [t], the method returns a node
    whose graph unfolds to [flattenLists t], the result of the function on
    trees; every object that existed keeps its address and its fields (the
    call only allocates), so the receiver still unfolds to [t], and the
    bracket cache is untouched. *)
Theorem flattenLists_store_refines s l t fuel :
  repr 0 s l t → size t < fuel →
  ∃ l' s',
    flattenLists_store fuel l s = (Ok l', s') ∧
    repr 0 s' l' (flattenLists t) ∧
    repr 0 s' l t ∧
    objects s `prefix_of` objects s' ∧
    cacheByLength s' = cacheByLength s.
Proof.
  intros Hr Hfuel.
  destruct (flattenLists_store_correct t fuel s l Hr Hfuel)
    as (l' & s' & Hrun & Hpre & Hcache & Hr').
  exists l', s'. split_and!; try done. by eapply repr_mono.
Qed.

End further_store.

(** * Closed instances *)

(** The scenarios of the specification. *)

Example scenario_closed_pair :
  let l := ListAstNode_create [NText 1%Z; closed_pair; NText 1%Z] false in
  node_length l = 5%Z ∧ unopenedBrackets l = ∅ ∧ listHeight l = 1%Z ∧
  canBeReused l ∅ false = true ∧ canBeReused l ∅ true = false.
Proof. vm_compute. by split_and!. Qed.

Example scenario_open_pair_last :
  let l := ListAstNode_create [NText 1%Z; open_pair] false in
  canBeReused l ∅ false = false ∧ canBeReused l ∅ true = false.
Proof. vm_compute. by split_and!. Qed.

Example scenario_invalid_bracket :
  let n := NInvalidBracket 1%Z (add 2 getEmpty) in
  canBeReused n {[2%Z]} false = false ∧ canBeReused n {[3%Z]} false = true.
Proof. vm_compute. by split_and!. Qed.

Example scenario_flatten :
  flattenLists
    (ListAstNode_create
       [ListAstNode_create [NText 1%Z; NText 2%Z] true;
        ListAstNode_create [closed_pair] false] false)
  = NList false 6%Z 1 [NText 1%Z; NText 2%Z; closed_pair] ∅.
Proof. vm_compute. reflexivity. Qed.

(** C3 (what the code does where the claim fails).  A mutable List whose
    aggregates agree with its single child of length 1 and category set {2}:
    [unappendChild] and [unprependChild] both return that child and leave a
    List without children which still has length 1 and [unopenedBrackets]
    {2}, not the zero length and the empty set. *)
Theorem unappendChild_keeps_stale_aggregates :
  aggregates_consistent one_child_store 1 ∧
  unappendChild 1 one_child_store = (Ok (Some 0), emptied_store) ∧
  unprependChild 1 one_child_store = (Ok (Some 0), emptied_store) ∧
  objects emptied_store !! 1 = Some (OList false 1%Z 1 [] {[2%Z]}) ∧
  ¬ aggregates_consistent emptied_store 1.
Proof.
  split_and!.
  - eexists _, _, _, _, _, _. split_and!.
    + reflexivity.
    + by repeat constructor.
    + reflexivity.
    + unfold unionAll. simpl. by rewrite (right_id_L ∅ (∪)).
  - vm_compute. reflexivity.
  - vm_compute. reflexivity.
  - done.
  - eapply emptied_store_inconsistent; done.
Qed.

(** C4 (what the code does where the claim fails).  On an immutable List
    over one text of length 1, [unappendChild] throws "this instance is
    immutable" and changes nothing; on the List [toMutable] returns for it,
    [unappendChild] and [unprependChild] succeed, and leave a List without
    children whose length is still 1, not zero. *)
Theorem toMutable_unappendChild_keeps_stale_length :
  unappendChild 1 frozen_store = (Throw "this instance is immutable", frozen_store) ∧
  toMutable 1 frozen_store = (Ok 2, thawed_store) ∧
  unappendChild 2 thawed_store = (Ok (Some 0), thawed_emptied_store) ∧
  unprependChild 2 thawed_store = (Ok (Some 0), thawed_emptied_store) ∧
  ¬ aggregates_consistent thawed_emptied_store 2.
Proof.
  split_and!; try (vm_compute; reflexivity).
  eapply emptied_store_inconsistent; done.
Qed.


Lemma frozen_store_repr : repr 0 frozen_store 1 frozen_tree.
Proof.
  eapply repr_list; [lia|reflexivity|]. repeat constructor.
Qed.


Lemma deepClone_List_mutable_witness :
  repr 0 frozen_store 1 (NList true 1%Z 1 [NText 1%Z] ∅) ∧
  size (NList true 1%Z 1 [NText 1%Z] ∅) < 3 ∧
  ∃ l' s',
    deepClone 3 1 frozen_store = (Ok l', s') ∧
    (∃ cs', objects s' !! l' = Some (OList false 1%Z 1 cs' ∅)) ∧
    ∀ node, is_Some (objects s' !! node) →
      (∃ s'', appendChildOfSameHeight l' node s' = (Ok (), s'')) ∧
      (∃ s'', prependChildOfSameHeight l' node s' = (Ok (), s'')) ∧
      (∃ r s'', unappendChild l' s' = (Ok r, s'')) ∧
      (∃ r s'', unprependChild l' s' = (Ok r, s'')).
Proof.
  split; [exact frozen_store_repr|]. split; [simpl; lia|].
  eapply deepClone_List_mutable; [exact frozen_store_repr|simpl; lia].
Defined.

Lemma toMutable_spec_witness :
  objects frozen_store !! 1 = Some (OList true 1%Z 1 [0] ∅) ∧
  ∃ l' s', toMutable 1 frozen_store = (Ok l', s') ∧
    objects frozen_store !! l' = None ∧
    objects s' !! l' = Some (OList false 1%Z 1 [0] ∅) ∧
    (∀ x, x ≠ l' → objects s' !! x = objects frozen_store !! x) ∧
    cacheByLength s' = cacheByLength frozen_store.
Proof.
  split; [reflexivity|].
  apply (toMutable_spec frozen_store 1 (OList (H:=columns) true 1%Z 1 [0] ∅)).
  reflexivity.
Defined.




(** On the tree of such a List alone: the invariant fails, and the stored
    length is replaced by the total. *)
Example flattenLists_stale_list :
  let stale : AstNode := NList false 1%Z 1 [] {[2%Z]} in
  ¬ consistent stale ∧
  node_length (flattenLists (flattenLists stale)) = 0%Z ∧
  node_length stale = 1%Z.
Proof. split; [|done]. by intros [? _]. Qed.

Lemma BracketAstNode_create_interned_witness :
  (∀ a b : Z, lengthHash a = lengthHash b → a = b) ∧
  reachable empty_store ∧
  rtc prim_step interned_once interned_once ∧
  ∃ n1 n2,
    (BracketAstNode_create 1%Z empty_store).1 = Ok n1 ∧
    (BracketAstNode_create 2%Z interned_once).1 = Ok n2 ∧
    objects interned_once !! n1 = Some (OBracket 1%Z) ∧
    ((1 = 2)%Z → n1 = n2) ∧ ((1 ≠ 2)%Z → n1 ≠ n2).
Proof.
  assert (∀ a b : Z, lengthHash a = lengthHash b → a = b) as Hinj by done.
  split; [exact Hinj|]. split; [apply rtc_refl|]. split; [apply rtc_refl|].
  apply (BracketAstNode_create_interned (H:=columns) empty_store interned_once
           1%Z 2%Z Hinj); apply rtc_refl.
Defined.

Lemma immutable_List_rejects_mutation_witness :
  objects frozen_store !! 1 = Some (OList true 1%Z 1 [0] ∅) ∧
  appendChildOfSameHeight 1 0 frozen_store
  = (Throw "this instance is immutable", frozen_store) ∧
  prependChildOfSameHeight 1 0 frozen_store
  = (Throw "this instance is immutable", frozen_store) ∧
  unappendChild 1 frozen_store = (Throw "this instance is immutable", frozen_store) ∧
  unprependChild 1 frozen_store = (Throw "this instance is immutable", frozen_store) ∧
  handleChildrenChanged 1 frozen_store
  = (Throw "this instance is immutable", frozen_store).
Proof.
  split; [reflexivity|].
  apply (immutable_List_rejects_mutation (H:=columns) frozen_store 1
           1%Z 1%Z [0] ∅ 0).
  reflexivity.
Defined.

Lemma mutators_recompute_aggregates_witness :
  objects one_child_store !! 1 = Some (OList false 1%Z 1 [0] {[2%Z]}) ∧
  Forall (λ c, is_Some (objects one_child_store !! c)) [0] ∧
  is_Some (objects one_child_store !! 0) ∧
  (∃ s', appendChildOfSameHeight 1 0 one_child_store = (Ok (), s') ∧
         restructured one_child_store 1 1 ([0] ++ [0]) s') ∧
  (∃ s', prependChildOfSameHeight 1 0 one_child_store = (Ok (), s') ∧
         restructured one_child_store 1 1 (0 :: [0]) s') ∧
  (∃ s', unappendChild 1 one_child_store = (Ok (last [0]), s') ∧
         restructured one_child_store 1 1 (removelast [0]) s') ∧
  (∃ s', unprependChild 1 one_child_store = (Ok (head [0]), s') ∧
         restructured one_child_store 1 1 (drop 1 [0]) s').
Proof.
  assert (is_Some (objects one_child_store !! 0)) as H0 by (by eexists).
  assert (Forall (λ c, is_Some (objects one_child_store !! c)) [0]) as Hcs
    by (by constructor).
  split; [reflexivity|]. split; [exact Hcs|]. split; [exact H0|].
  apply (mutators_recompute_aggregates (H:=columns) one_child_store 1 0
           1%Z 1%Z [0] {[2%Z]}); [reflexivity|exact Hcs|exact H0].
Defined.

Lemma canBeReused_monotone_witness :
  ({[3%Z]} : SmallImmutableSet) ⊆ {[3%Z; 4%Z]} ∧
  (true = false → false = false) ∧
  canBeReused nested_lists {[3%Z; 4%Z]} true = true ∧
  canBeReused nested_lists {[3%Z]} false = true.
Proof.
  assert (({[3%Z]} : SmallImmutableSet) ⊆ {[3%Z; 4%Z]}) as Hsub.
  { intros x ->%elem_of_singleton. apply elem_of_union_l. by apply elem_of_singleton. }
  assert (canBeReused nested_lists {[3%Z; 4%Z]} true = true) as Hrun
    by (vm_compute; reflexivity).
  split; [exact Hsub|]. split; [done|]. split; [exact Hrun|].
  apply (canBeReused_monotone (H:=columns) nested_lists {[3%Z; 4%Z]} {[3%Z]}
           true false); [exact Hsub|done|exact Hrun].
Defined.

Lemma deepClone_reads_alike_witness :
  repr 0 frozen_store 1 frozen_tree ∧ size frozen_tree < 3 ∧
  ∃ l' s' t',
    deepClone 3 1 frozen_store = (Ok l', s') ∧
    repr 0 s' l' t' ∧
    (∀ expected endLineDidChange,
       canBeReused t' expected endLineDidChange
       = canBeReused frozen_tree expected endLineDidChange) ∧
    flattenLists t' = flattenLists frozen_tree ∧
    leaves t' = leaves frozen_tree ∧
    noImmutableList t' = true.
Proof.
  split; [exact frozen_store_repr|]. split; [simpl; lia|].
  apply deepClone_reads_alike; [exact frozen_store_repr|simpl; lia].
Defined.

Lemma makeElementMutable_spec_witness :
  objects cow_store !! 2 = Some (OList false 1%Z 2 [1] ∅) ∧
  Forall (λ c, is_Some (objects cow_store !! c)) [1] ∧
  (∃ m s', makeLastElementMutable 2 cow_store = (Ok (Some m), s') ∧
           slot_made_mutable cow_store 2 (length [1] - 1) m s' ∧
           makeLastElementMutable 2 s' = (Ok (Some m), s')) ∧
  (∃ m s', makeFirstElementMutable 2 cow_store = (Ok (Some m), s') ∧
           slot_made_mutable cow_store 2 0 m s' ∧
           makeFirstElementMutable 2 s' = (Ok (Some m), s')).
Proof.
  assert (Forall (λ c, is_Some (objects cow_store !! c)) [1]) as Hcs
    by (constructor; [by eexists|constructor]).
  split; [reflexivity|]. split; [exact Hcs|].
  apply (makeElementMutable_spec (H:=columns) cow_store 2 false 1%Z 2%Z [1] ∅);
    [reflexivity|exact Hcs].
Defined.

Lemma one_child_store_consistent : aggregates_consistent one_child_store 1.
Proof.
  exists false, 1%Z, 1%Z, [0], {[2%Z]}, [OInvalidBracket (H:=columns) 1%Z {[2%Z]}].
  split_and!; [reflexivity|by repeat constructor|reflexivity|].
  unfold unionAll. simpl. by rewrite (right_id_L ∅ (∪)).
Qed.

Lemma add_then_remove_child_witness :
  objects one_child_store !! 1 = Some (OList false 1%Z 1 [0] {[2%Z]}) ∧
  Forall (λ c, is_Some (objects one_child_store !! c)) [0] ∧
  is_Some (objects one_child_store !! 0) ∧
  ([0] : list nat) ≠ [] ∧ (1 ∉ [0]) ∧
  aggregates_consistent one_child_store 1 ∧
  (∃ s1, appendChildOfSameHeight 1 0 one_child_store = (Ok (), s1) ∧
         unappendChild 1 s1 = (Ok (Some 0), one_child_store)) ∧
  (∃ s1, prependChildOfSameHeight 1 0 one_child_store = (Ok (), s1) ∧
         unprependChild 1 s1 = (Ok (Some 0), one_child_store)).
Proof.
  assert (is_Some (objects one_child_store !! 0)) as H0 by (by eexists).
  assert (Forall (λ c, is_Some (objects one_child_store !! c)) [0]) as Hcs
    by (by constructor).
  assert (1 ∉ [0]) as Hthis by (intros ?%list_elem_of_singleton; lia).
  split; [reflexivity|]. split; [exact Hcs|]. split; [exact H0|].
  split; [done|]. split; [exact Hthis|].
  split; [exact one_child_store_consistent|].
  apply (add_then_remove_child (H:=columns) one_child_store 1 0 1%Z 1%Z [0] {[2%Z]});
    [reflexivity|exact Hcs|exact H0|done|exact Hthis|exact one_child_store_consistent].
Defined.

Lemma toMutable_idempotent_witness :
  toMutable 1 frozen_store = (Ok 2, thawed_store) ∧
  toMutable 2 thawed_store = (Ok 2, thawed_store) ∧
  (∃ o, objects thawed_store !! 2 = Some o ∧
        ∀ len h cs u, o ≠ OList true len h cs u).
Proof.
  split; [reflexivity|].
  apply (toMutable_idempotent (H:=columns) frozen_store 1 2 thawed_store).
  reflexivity.
Defined.

Lemma handleChildrenChanged_idempotent_witness :
  objects one_child_store !! 1 = Some (OList false 1%Z 1 [0] {[2%Z]}) ∧
  Forall (λ c, is_Some (objects one_child_store !! c)) [0] ∧
  (1 ∉ [0]) ∧
  ∃ s', handleChildrenChanged 1 one_child_store = (Ok (), s') ∧
        handleChildrenChanged 1 s' = (Ok (), s') ∧
        (aggregates_consistent one_child_store 1 → s' = one_child_store).
Proof.
  assert (Forall (λ c, is_Some (objects one_child_store !! c)) [0]) as Hcs
    by (constructor; [by eexists|constructor]).
  assert (1 ∉ [0]) as Hthis by (intros ?%list_elem_of_singleton; lia).
  split; [reflexivity|]. split; [exact Hcs|]. split; [exact Hthis|].
  apply (handleChildrenChanged_idempotent (H:=columns) one_child_store 1
           1%Z 1%Z [0] {[2%Z]}); [reflexivity|exact Hcs|exact Hthis].
Defined.

Lemma flattenLists_store_refines_witness :
  repr 0 frozen_store 1 frozen_tree ∧ size frozen_tree < 3 ∧
  ∃ l' s',
    flattenLists_store 3 1 frozen_store = (Ok l', s') ∧
    repr 0 s' l' (flattenLists frozen_tree) ∧
    repr 0 s' 1 frozen_tree ∧
    objects frozen_store `prefix_of` objects s' ∧
    cacheByLength s' = cacheByLength frozen_store.
Proof.
  split; [exact frozen_store_repr|]. split; [simpl; lia|].
  apply flattenLists_store_refines; [exact frozen_store_repr|simpl; lia].
Defined.
